(** * Helios-Ascension asset utilities: a verified model

    Two developer-time scripts are modelled here.

    - [add_textures_to_ron.py]: a line-oriented patcher that inserts a
      [texture:] field after the [rotation_period:] line of every
      celestial body whose name is a key of [TEXTURE_MAPPING].
    - [assets/textures/generate_placeholders.py]: a generator of noisy
      flat-colour placeholder images.

    Python strings are sequences of Unicode code points; a code point is a
    number of type [N] and a string a [list N].  Dictionaries are [gmap]s,
    loops are folds over explicit state records, the file system and the
    console are threaded through the top-level functions. *)

From Stdlib Require Import ZArith NArith List String Ascii Lia.
From Stdlib Require Import DecimalString.
From stdpp Require Import base option gmap list.

(** ** Python strings *)

Abbreviation pystr := (list N).

(** The code points of an ASCII literal. *)
Fixpoint lit (s : string) : pystr :=
  match s with
  | EmptyString => []
  | String a s' => N_of_ascii a :: lit s'
  end.

Global Arguments lit : simpl never.

Definition QUOTE : N := 34.
Definition NEWLINE : N := 10.
Definition SPACE : N := 32.
Definition TAB : N := 9.

(** [str.isspace] on one code point, which is also what [\s] of a [str]
    pattern and [str.lstrip()] use (CPython's [_PyUnicode_IsWhitespace]). *)
Definition isspace (c : N) : bool :=
  ((0x09 <=? c) && (c <=? 0x0D))%N
  || ((0x1C <=? c) && (c <=? 0x20))%N
  || (c =? 0x85)%N || (c =? 0xA0)%N || (c =? 0x1680)%N
  || ((0x2000 <=? c) && (c <=? 0x200A))%N
  || (c =? 0x2028)%N || (c =? 0x2029)%N || (c =? 0x202F)%N
  || (c =? 0x205F)%N || (c =? 0x3000)%N.

(** [line.lstrip()] *)
Fixpoint lstrip (s : pystr) : pystr :=
  match s with
  | c :: s' => if isspace c then lstrip s' else s
  | [] => []
  end.

(** The leading run of characters of a class, and what follows it. *)
Fixpoint span (cls : N → bool) (s : pystr) : pystr :=
  match s with
  | c :: s' => if cls c then c :: span cls s' else []
  | [] => []
  end.

Fixpoint skip (cls : N → bool) (s : pystr) : pystr :=
  match s with
  | c :: s' => if cls c then skip cls s' else s
  | [] => []
  end.

(** [f.readlines()] on the text of a file opened in text mode: the text is
    cut after every newline, and the newline stays with its line. *)
Fixpoint readlines (text : pystr) : list pystr :=
  match text with
  | [] => []
  | c :: text' =>
      if (c =? NEWLINE)%N then [c] :: readlines text'
      else match readlines text' with
           | [] => [[c]]
           | l :: ls => (c :: l) :: ls
           end
  end.

(** [f.writelines(lines)] writes the strings one after the other. *)
Definition writelines (lines : list pystr) : pystr := concat lines.

(** [str(n)] for a non-negative integer. *)
Definition str_of_nat (n : nat) : pystr :=
  lit (NilZero.string_of_uint (Nat.to_uint n)).

(** ** Regular expressions

    The fragment of [re] the patcher uses: literal characters, a greedy
    star or plus over a character class, and one capturing group around a
    plus.  [re_here] is a backtracking matcher: a greedy item first takes
    as many characters as it can and gives them back one at a time while
    the rest of the pattern fails. *)

Inductive re_item :=
  | RChar (c : N)
  | RStar (cls : N → bool)
  | RPlus (cls : N → bool)
  | RGroup (cls : N → bool).

Fixpoint greedy {A} (cls : N → bool) (k : pystr → pystr → option A)
    (taken s : pystr) : option A :=
  match s with
  | c :: s' =>
      if cls c then
        match greedy cls k (taken ++ [c]) s' with
        | Some m => Some m
        | None => k taken s
        end
      else k taken s
  | [] => k taken s
  end.

Fixpoint re_here (r : list re_item) (s : pystr) (group1 : pystr) : option pystr :=
  match r with
  | [] => Some group1
  | RChar c :: r' =>
      match s with
      | c' :: s' => if (c =? c')%N then re_here r' s' group1 else None
      | [] => None
      end
  | RStar cls :: r' => greedy cls (λ _ rest, re_here r' rest group1) [] s
  | RPlus cls :: r' =>
      match s with
      | c :: s' =>
          if cls c then greedy cls (λ _ rest, re_here r' rest group1) [c] s'
          else None
      | [] => None
      end
  | RGroup cls :: r' =>
      match s with
      | c :: s' =>
          if cls c then greedy cls (λ taken rest, re_here r' rest taken) [c] s'
          else None
      | [] => None
      end
  end.

(** [re.match(pattern, line)]: the match is anchored at the start of the
    line; the result is group 1 of the match (empty when the pattern has no
    group), or [None]. *)
Definition re_match (pattern : list re_item) (line : pystr) : option pystr :=
  re_here pattern line [].

Definition not_quote (c : N) : bool := negb (c =? QUOTE)%N.

(** The pattern [\s*name:\s*Q([^Q]+)Q], where Q stands for the double
    quote character. *)
Definition NAME_RE : list re_item :=
  [RStar isspace] ++ map RChar (lit "name:")
    ++ [RStar isspace; RChar QUOTE; RGroup not_quote; RChar QUOTE].

(** The pattern [\s*rotation_period:]. *)
Definition ROTATION_RE : list re_item :=
  [RStar isspace] ++ map RChar (lit "rotation_period:").

(** ** The patcher: [add_textures_to_ron.py] *)

Module Patcher.

(** The module-level dictionary. *)
Definition TEXTURE_MAPPING : gmap pystr pystr :=
  list_to_map
    [ (lit "Sol", lit "textures/celestial/stars/sun_2k.jpg");
      (lit "Mercury", lit "textures/celestial/planets/mercury_2k.jpg");
      (lit "Venus", lit "textures/celestial/planets/venus_atmosphere_2k.jpg");
      (lit "Earth", lit "textures/celestial/planets/earth_2k.jpg");
      (lit "Mars", lit "textures/celestial/planets/mars_2k.jpg");
      (lit "Jupiter", lit "textures/celestial/planets/jupiter_2k.jpg");
      (lit "Saturn", lit "textures/celestial/planets/saturn_2k.jpg");
      (lit "Uranus", lit "textures/celestial/planets/uranus_2k.jpg");
      (lit "Neptune", lit "textures/celestial/planets/neptune_2k.jpg");
      (lit "Pluto", lit "textures/celestial/planets/pluto_1k.jpg");
      (lit "Ceres", lit "textures/celestial/planets/ceres_1k.jpg");
      (lit "Eris", lit "textures/celestial/planets/eris_1k.jpg");
      (lit "Moon", lit "textures/celestial/moons/moon_2k.jpg");
      (lit "Io", lit "textures/celestial/moons/io_1k.jpg");
      (lit "Europa", lit "textures/celestial/moons/europa_1k.jpg");
      (lit "Ganymede", lit "textures/celestial/moons/ganymede_1k.jpg");
      (lit "Callisto", lit "textures/celestial/moons/callisto_1k.jpg");
      (lit "Titan", lit "textures/celestial/moons/titan_1k.jpg");
      (lit "Rhea", lit "textures/celestial/moons/rhea_1k.jpg");
      (lit "Iapetus", lit "textures/celestial/moons/iapetus_1k.jpg");
      (lit "Dione", lit "textures/celestial/moons/dione_1k.jpg");
      (lit "Tethys", lit "textures/celestial/moons/tethys_1k.jpg");
      (lit "Enceladus", lit "textures/celestial/moons/enceladus_1k.jpg") ].

(** The local variables of [process_ron_file] that the loop updates, and
    the text it has printed so far (one entry per [print] call). *)
Record locals := Locals {
  output_lines : list pystr;
  current_body_name : option pystr;
  texture_added : bool;
  bodies_updated : nat;
  printed : list pystr
}.

(** Truth value of [current_body_name]: [None] and the empty string are
    false. *)
Definition truthy (v : option pystr) : bool :=
  match v with
  | Some (_ :: _) => true
  | _ => false
  end.

(** [len(line) - len(line.lstrip())] *)
Definition indent_of (line : pystr) : nat :=
  length line - length (lstrip line).

(** [' ' * indent + f'texture: Some(Q{texture_path}Q),\n'], Q being the
    double quote character. *)
Definition texture_line (indent : nat) (texture_path : pystr) : pystr :=
  replicate indent SPACE
    ++ lit "texture: Some(" ++ [QUOTE] ++ texture_path ++ [QUOTE]
    ++ lit ")," ++ [NEWLINE].

Section Loop.

(** The loop is stated over any dictionary; the script runs it with
    [TEXTURE_MAPPING]. *)
Variable mapping : gmap pystr pystr.

(** One iteration of [for i, line in enumerate(lines)]. *)
Definition loop_body (st : locals) (line : pystr) : locals :=
  (* name_match = re.match(...); if name_match: ... *)
  let st :=
    match re_match NAME_RE line with
    | Some name =>
        Locals (output_lines st) (Some name) false
               (bodies_updated st) (printed st)
    | None => st
    end in
  if truthy (current_body_name st) && negb (texture_added st)
     && bool_decide (is_Some (re_match ROTATION_RE line))
  then
    (* output_lines.append(line) *)
    let st :=
      Locals (output_lines st ++ [line]) (current_body_name st)
             (texture_added st) (bodies_updated st) (printed st) in
    (* if current_body_name in TEXTURE_MAPPING: ... *)
    let st :=
      match current_body_name st with
      | Some name =>
          match mapping !! name with
          | Some texture_path =>
              let indent := indent_of line in
              Locals (output_lines st ++ [texture_line indent texture_path])
                     (current_body_name st) true
                     (S (bodies_updated st))
                     (printed st ++ [lit "Added texture for: " ++ name])
          | None => st
          end
      | None => st
      end in
    (* current_body_name = None; continue *)
    Locals (output_lines st) None (texture_added st)
           (bodies_updated st) (printed st)
  else
    (* output_lines.append(line) *)
    Locals (output_lines st ++ [line]) (current_body_name st)
           (texture_added st) (bodies_updated st) (printed st).

(** The whole loop, from given values of the locals. *)
Definition run (st : locals) (lines : list pystr) : locals :=
  fold_left loop_body lines st.

(** The locals before the loop. *)
Definition initial : locals := Locals [] None false 0 [].

(** The loop of [process_ron_file] on the lines read. *)
Definition process_lines (lines : list pystr) : locals := run initial lines.

End Loop.

(** *** The file system and the console *)

(** The files [process_ron_file] can see, each with the text a read in
    text mode returns, and what has been printed, one entry per [print]. *)
Record world := World {
  files : gmap pystr pystr;
  stdout : list pystr
}.

Inductive py_value :=
  | PyNone
  | PyInt (n : Z).

Inductive py_exception :=
  | FileNotFoundError (path : pystr).

Inductive outcome :=
  | Returns (v : py_value) (w : world)
  | Raises (e : py_exception) (w : world).

(** The two closing [print] calls of [process_ron_file]. *)
Definition summary (bodies_updated : nat) (output_file : pystr) : list pystr :=
  [ [NEWLINE] ++ lit "Updated " ++ str_of_nat bodies_updated
      ++ lit " celestial bodies with texture paths";
    lit "Output written to: " ++ output_file ].

(** [process_ron_file(input_file, output_file)]: the function has no
    [return] statement, so a call that ends normally gives [None].

    What the model leaves out.  A file is the text a read in text mode
    returns, that is, after decoding and after the translation of the line
    endings: a file with CRLF endings is here the text with LF endings, and
    the bytes on disk, which the script rewrites with the line endings of
    the platform, are not represented.  A path absent from [files] is one
    for which [open(input_file, 'r')] raises [FileNotFoundError]; the other
    errors of [open], of the decoding, of the write and of [print] are not
    modelled, so every call on a path of [files] ends normally here. *)
Definition process_ron_file (w : world) (input_file output_file : pystr) : outcome :=
  match files w !! input_file with
  | None => Raises (FileNotFoundError input_file) w
  | Some text =>
      let lines := readlines text in
      let st := process_lines TEXTURE_MAPPING lines in
      Returns PyNone
        (World (<[output_file := writelines (output_lines st)]> (files w))
               (stdout w ++ printed st
                  ++ summary (bodies_updated st) output_file))
  end.

(** *** Vocabulary of the specification *)

(** A name line and the body name it carries. *)
Definition is_name_line (line : pystr) : Prop :=
  is_Some (re_match NAME_RE line).

(** A [rotation_period:] line. *)
Definition is_rotation_line (line : pystr) : Prop :=
  is_Some (re_match ROTATION_RE line).

(** [patched mapping lines out n]: [out] is [lines] with [n] texture lines
    added, each one directly after a [rotation_period:] line, with that
    line's indentation width and a path of the dictionary. *)
Inductive patched (mapping : gmap pystr pystr) :
    list pystr → list pystr → nat → Prop :=
  | patched_nil : patched mapping [] [] 0
  | patched_copy line lines out n :
      patched mapping lines out n →
      patched mapping (line :: lines) (line :: out) n
  | patched_texture line name path lines out n :
      is_rotation_line line →
      mapping !! name = Some path →
      patched mapping lines out n →
      patched mapping (line :: lines)
        (line :: texture_line (indent_of line) path :: out) (S n).

(** The locals with which the loop would start on [lines] if the cursor
    were [(name, added)] and nothing had been written yet. *)
Definition start (name : option pystr) (added : bool) : locals :=
  Locals [] name added 0 [].

(** [extend st d]: what the loop has accumulated in [st], followed by what
    a loop started afresh has accumulated in [d]; the cursor is that of [d]. *)
Definition extend (st d : locals) : locals :=
  Locals (output_lines st ++ output_lines d)
         (current_body_name d) (texture_added d)
         (bodies_updated st + bodies_updated d)
         (printed st ++ printed d).

(** A record is open: a body name is set and its texture not yet added. *)
Definition pending (st : locals) : nat :=
  if truthy (current_body_name st) && negb (texture_added st) then 1 else 0.

(** The number of name lines, that is, of records. *)
Definition name_lines (lines : list pystr) : nat :=
  length (filter is_name_line lines).

(** A line that ends with its only newline. *)
Definition terminated (line : pystr) : Prop :=
  ∃ body, line = body ++ [NEWLINE] ∧ NEWLINE ∉ body.

(** What [readlines] returns: lines that each end with their only newline,
    but for the last one, which may have none. *)
Inductive file_lines : list pystr → Prop :=
  | file_lines_nil : file_lines []
  | file_lines_last line :
      line ≠ [] → NEWLINE ∉ line → file_lines [line]
  | file_lines_cons line lines :
      terminated line → file_lines lines → file_lines (line :: lines).

(** The leading whitespace of a line. *)
Definition leading_whitespace (line : pystr) : pystr := span isspace line.

(** The inserted line as the specification words it: the leading
    whitespace of the anchor line itself, then the field. *)
Definition texture_line_same_whitespace (anchor path : pystr) : pystr :=
  leading_whitespace anchor
    ++ lit "texture: Some(" ++ [QUOTE] ++ path ++ [QUOTE]
    ++ lit ")," ++ [NEWLINE].

(** Sample inputs. *)
Definition earth_name_line : pystr :=
  lit "    name: " ++ [QUOTE] ++ lit "Earth" ++ [QUOTE] ++ lit "," ++ [NEWLINE].
Definition halley_name_line : pystr :=
  lit "    name: " ++ [QUOTE] ++ lit "Halley" ++ [QUOTE] ++ lit "," ++ [NEWLINE].
Definition mars_name_line : pystr :=
  lit "    name: " ++ [QUOTE] ++ lit "Mars" ++ [QUOTE] ++ lit "," ++ [NEWLINE].
Definition empty_name_line : pystr :=
  lit "    name: " ++ [QUOTE; QUOTE] ++ lit "," ++ [NEWLINE].
Definition mass_line : pystr := lit "    mass: 5.97e24," ++ [NEWLINE].
Definition rotation_line : pystr := lit "  rotation_period: 24.0," ++ [NEWLINE].
Definition tab_rotation_line : pystr :=
  [TAB] ++ lit "rotation_period: 24.0," ++ [NEWLINE].
Definition earth_path : pystr := lit "textures/celestial/planets/earth_2k.jpg".
Definition ron_path : pystr := lit "assets/data/solar_system.ron".

(** A world whose only file is the configuration file, with these lines. *)
Definition ron_world (lines : list pystr) : world :=
  World {[ ron_path := writelines lines ]} [].

(** *** The script run as a program *)

Definition backup_path : pystr := lit "assets/data/solar_system.ron.backup".

(** Where an outcome leaves the world. *)
Definition outcome_world (o : outcome) : world :=
  match o with
  | Returns _ w => w
  | Raises _ w => w
  end.

(** The block under [if __name__ == "__main__"]: the input file is first
    restored from the backup, if there is one ([os.path.exists], then
    [shutil.copy2]); the input file is then patched in place.  A path is
    a file or nothing: directories are not modelled, and [shutil.copy2]
    is taken to succeed whenever the backup exists, so the only exception
    of the model is the one of [process_ron_file] on a missing file. *)
Definition main (w : world) : outcome :=
  let input_file := ron_path in
  let output_file := ron_path in
  let backup_file := backup_path in
  let w :=
    match files w !! backup_file with
    | Some content =>
        World (<[input_file := content]> (files w))
              (stdout w ++ [lit "Restored from backup: " ++ backup_file])
    | None => w
    end in
  match process_ron_file w input_file output_file with
  | Returns _ w => Returns PyNone (World (files w) (stdout w ++ [lit "Done!"]))
  | Raises e w => Raises e w
  end.

(** *** Records *)

(** A record as the script expects it: the name line, lines that are
    neither name lines nor anchors, the anchor, and lines up to the next
    name line. *)
Record body_record := BodyRecord {
  body_name : pystr;
  name_line : pystr;
  before_anchor : list pystr;
  anchor : pystr;
  after_anchor : list pystr
}.

Definition well_formed (r : body_record) : Prop :=
  re_match NAME_RE (name_line r) = Some (body_name r)
  ∧ Forall (λ l, ¬ is_name_line l ∧ ¬ is_rotation_line l) (before_anchor r)
  ∧ is_rotation_line (anchor r)
  ∧ Forall (λ l, ¬ is_name_line l) (after_anchor r).

Definition record_lines (r : body_record) : list pystr :=
  name_line r :: before_anchor r ++ anchor r :: after_anchor r.

(** The record with its texture line, if its name is in the dictionary. *)
Definition patched_record (mapping : gmap pystr pystr) (r : body_record)
    : list pystr :=
  name_line r :: before_anchor r ++ anchor r
    :: match mapping !! body_name r with
       | Some path => [texture_line (indent_of (anchor r)) path]
       | None => []
       end
    ++ after_anchor r.

(** The names of the records that are in the dictionary, in order. *)
Definition mapped_names (mapping : gmap pystr pystr) (rs : list body_record)
    : list pystr :=
  body_name <$> filter (λ r, is_Some (mapping !! body_name r)) rs.

(** The message printed for a body that gets its texture. *)
Definition added_message (name : pystr) : pystr :=
  lit "Added texture for: " ++ name.

(** What holds of the locals at every turn of the loop: the texture flag is
    only set when no body name is, a body name is a non-empty string
    without double quote, and one message has been printed per body
    counted, each for a name of the dictionary. *)
Definition locals_ok (mapping : gmap pystr pystr) (st : locals) : Prop :=
  (texture_added st = true → current_body_name st = None)
  ∧ (∀ name, current_body_name st = Some name → name ≠ [] ∧ QUOTE ∉ name)
  ∧ length (printed st) = bodies_updated st
  ∧ Forall (λ m, ∃ name, is_Some (mapping !! name) ∧ m = added_message name)
           (printed st).

(** More sample inputs. *)
Definition open_rotation_line : pystr := lit "  rotation_period: 24.0,".
Definition earth_record_sample : body_record :=
  BodyRecord (lit "Earth") earth_name_line [mass_line] rotation_line
             [mass_line; rotation_line].
Definition halley_record_sample : body_record :=
  BodyRecord (lit "Halley") halley_name_line [] rotation_line [mass_line].

(** A world whose only file is the backup, with these lines. *)
Definition backup_world (lines : list pystr) : world :=
  World {[ backup_path := writelines lines ]} [].

End Patcher.

(** ** The generator: [assets/textures/generate_placeholders.py] *)

Module Placeholders.

(** An RGB pixel, and an image as Pillow stores it: rows one after the
    other, the pixel [(x, y)] at index [y * width + x]. *)
Definition pixel : Type := Z * Z * Z.

Record image := Image {
  width : nat;
  height : nat;
  data : list pixel
}.

(** Pillow keeps each channel in a byte and clips the integers it is
    given to 0..255, in [Image.new] and in pixel assignment alike. *)
Definition clip8 (v : Z) : Z :=
  if (v <=? 0)%Z then 0%Z else if (v <? 256)%Z then v else 255%Z.

Definition clip_pixel (p : pixel) : pixel :=
  let '(r, g, b) := p in (clip8 r, clip8 g, clip8 b).

(** [Image.new('RGB', (width, height), base_color)] *)
Definition Image_new (width height : nat) (base_color : pixel) : image :=
  Image width height (replicate (height * width) (clip_pixel base_color)).

(** [pixels[x, y]], an [IndexError] outside the image being [None]. *)
Definition getpixel (img : image) (x y : nat) : option pixel :=
  if bool_decide (x < width img ∧ y < height img)
  then data img !! (y * width img + x)
  else None.

(** [pixels[x, y] = value] *)
Definition putpixel (img : image) (x y : nat) (value : pixel) : option image :=
  if bool_decide (x < width img ∧ y < height img)
  then Some (Image (width img) (height img)
                   (<[y * width img + x := clip_pixel value]> (data img)))
  else None.

(** [for x in xs: body], the body working on a state and possibly raising. *)
Fixpoint for_each {X S} (xs : list X) (body : X → S → option S) (s : S) : option S :=
  match xs with
  | [] => Some s
  | x :: xs' => body x s ≫= for_each xs' body
  end.

(** [range(n)] *)
Definition range (n : nat) : list nat := seq 0 n.

(** What [img.save(path, 'JPEG', quality=...)] leaves on disk, recorded
    by the raster that was compressed and the quality. *)
Inductive jpeg_file := Jpeg (quality : nat) (raster : image).

(** The lists of the script. *)
Definition moons_1k : list (pystr * pystr * pixel) :=
  [ (lit "celestial/moons/io_1k.jpg", lit "Io", (180, 150, 100));
    (lit "celestial/moons/europa_1k.jpg", lit "Europa", (200, 190, 180));
    (lit "celestial/moons/ganymede_1k.jpg", lit "Ganymede", (140, 130, 120));
    (lit "celestial/moons/callisto_1k.jpg", lit "Callisto", (100, 95, 90));
    (lit "celestial/moons/titan_1k.jpg", lit "Titan", (180, 140, 100));
    (lit "celestial/moons/enceladus_1k.jpg", lit "Enceladus", (240, 240, 240));
    (lit "celestial/moons/rhea_1k.jpg", lit "Rhea", (200, 195, 190));
    (lit "celestial/moons/iapetus_1k.jpg", lit "Iapetus", (150, 145, 140));
    (lit "celestial/moons/dione_1k.jpg", lit "Dione", (210, 205, 200));
    (lit "celestial/moons/tethys_1k.jpg", lit "Tethys", (220, 215, 210)) ]%Z.

Definition moons_2k : list (pystr * pystr * pixel) :=
  [ (lit "celestial/moons/phobos_2k.jpg", lit "Phobos", (120, 110, 100));
    (lit "celestial/moons/deimos_2k.jpg", lit "Deimos", (140, 130, 120));
    (lit "celestial/moons/triton_2k.jpg", lit "Triton", (210, 200, 190));
    (lit "celestial/moons/miranda_2k.jpg", lit "Miranda", (180, 175, 170));
    (lit "celestial/moons/mimas_2k.jpg", lit "Mimas", (210, 205, 200));
    (lit "celestial/moons/phoebe_2k.jpg", lit "Phoebe", (80, 75, 70)) ]%Z.

Definition asteroids_2k : list (pystr * pystr * pixel) :=
  [ (lit "celestial/asteroids/vesta_2k.jpg", lit "Vesta", (160, 150, 140)) ]%Z.

Definition dwarf_planets_2k : list (pystr * pystr * pixel) :=
  [ (lit "celestial/planets/pluto_2k.jpg", lit "Pluto", (190, 170, 150)) ]%Z.

Section Generator.

(** Python's [random] module: the state of its hidden generator,
    [random.seed], which replaces that state by one computed from the seed,
    and [random.randint]. *)
Variable rng : Type.
Variable random_seed : Z → rng.
Variable random_randint : Z → Z → rng → Z * rng.

(** [img.filter(ImageFilter.GaussianBlur(radius=1))] *)
Variable GaussianBlur1 : image → image.

(** The built-in [hash] on strings, fixed for one run of the interpreter. *)
Variable hash : pystr → Z.

(** The body of the two nested loops on one pixel. *)
Definition noise_pixel (y x : nat) (s : image * rng) : option (image * rng) :=
  let '(img, g) := s in
  '(r, g_, b) ← getpixel img x y;
  let '(noise, g) := random_randint (-30) 30 g in
  img ← putpixel img x y
    (Z.max 0 (Z.min 255 (r + noise)),
     Z.max 0 (Z.min 255 (g_ + noise)),
     Z.max 0 (Z.min 255 (b + noise)));
  Some (img, g).

(** [for y in range(height): for x in range(width): ...] *)
Definition add_noise (width height : nat) (s : image * rng) : option (image * rng) :=
  for_each (range height) (λ y, for_each (range width) (noise_pixel y)) s.

(** [create_rocky_texture(width, height, base_color, seed)], run with the
    hidden generator in state [g]; it returns the image and leaves the
    generator in a new state. *)
Definition create_rocky_texture (width height : nat) (base_color : pixel)
    (seed : Z) (g : rng) : option (image * rng) :=
  let g := random_seed seed in
  let img := Image_new width height base_color in
  '(img, g) ← add_noise width height (img, g);
  let img := GaussianBlur1 img in
  Some (img, g).

(** The hidden generator, the files saved so far in the order of the
    [save] calls, and the console.  Directories are not modelled. *)
Record world := World {
  random_state : rng;
  saved : list (pystr * jpeg_file);
  stdout : list pystr
}.

(** [create_moon_texture(output_path, width, height, color_tuple, name)].
    The call of [os.makedirs] is left out, and [img.save] and the two
    [print] calls are taken to succeed: the model says which image is
    handed to [save] under which path, not that the file reaches the disk. *)
Definition create_moon_texture (output_path : pystr) (width height : nat)
    (color_tuple : pixel) (name : pystr) (w : world) : option world :=
  let out := stdout w ++ [lit "Creating placeholder texture for " ++ name ++ lit "..."] in
  '(img, g) ← create_rocky_texture width height color_tuple (hash name)
                (random_state w);
  Some (World g (saved w ++ [(output_path, Jpeg 85 img)])
          (out ++ [[0x2713%N] ++ lit " Created " ++ output_path ++ lit " ("
                     ++ str_of_nat width ++ lit "x" ++ str_of_nat height
                     ++ lit ")"])).

(** One of the module-level loops:
    [for path, name, color in specs: create_moon_texture(path, width, height, color, name)] *)
Definition generate (width height : nat) (specs : list (pystr * pystr * pixel))
    (w : world) : option world :=
  for_each specs
    (λ '(path, name, color), create_moon_texture path width height color name) w.

(** The script after its imports and definitions: the four loops between
    the opening and the closing messages. *)
Definition banner : pystr := replicate 50 61%N.

Definition main (w : world) : option world :=
  let w := World (random_state w) (saved w)
             (stdout w ++ [banner; lit "Generating Placeholder Textures";
                           banner; []]) in
  w ← generate 1024 512 moons_1k w;
  w ← generate 2048 1024 moons_2k w;
  w ← generate 2048 1024 asteroids_2k w;
  w ← generate 2048 1024 dwarf_planets_2k w;
  Some (World (random_state w) (saved w)
          (stdout w ++
             [ []; banner;
               lit "All placeholder textures generated successfully!";
               banner; [];
               lit "Note: These are placeholder textures.";
               lit "The procedural variation system will apply additional";
               lit "color and material variations to make them look unique." ])).

(** *** Vocabulary of the specification *)

(** The state of the generator after one more [random.randint(-30, 30)]. *)
Definition next_state (g : rng) : rng := (random_randint (-30) 30 g).2.

(** The [n]-th value [random.randint(-30, 30)] gives from state [g], and
    after [random.seed(seed)], counting from 0. *)
Definition sample_from (g : rng) (n : nat) : Z :=
  (random_randint (-30) 30 (Nat.iter n next_state g)).1.

Definition noise_sample (seed : Z) (n : nat) : Z :=
  sample_from (random_seed seed) n.

(** A pixel with a noise delta added to its three channels, each clamped. *)
Definition noisy_pixel (p : pixel) (noise : Z) : pixel :=
  let '(r, g_, b) := p in
  (Z.max 0 (Z.min 255 (r + noise)),
   Z.max 0 (Z.min 255 (g_ + noise)),
   Z.max 0 (Z.min 255 (b + noise))).

(** Pixels taken one after the other, each with the next sample added. *)
Fixpoint noisy (ps : list pixel) (g : rng) : list pixel * rng :=
  match ps with
  | [] => ([], g)
  | p :: ps' =>
      let '(noise, g') := random_randint (-30) 30 g in
      let '(ps'', g'') := noisy ps' g' in
      (noisy_pixel p noise :: ps'', g'')
  end.

(** The image computed from the arguments alone: the noisy pixels of a
    generator seeded with [seed], smoothed. *)
Definition rocky_image (width height : nat) (base_color : pixel) (seed : Z)
    : image :=
  GaussianBlur1
    (Image width height
       (noisy (replicate (height * width) (clip_pixel base_color))
              (random_seed seed)).1).

Definition saved_entry (width height : nat) (spec : pystr * pystr * pixel)
    : pystr * jpeg_file :=
  let '(path, name, color) := spec in
  (path, Jpeg 85 (rocky_image width height color (hash name))).

(** A channel value that fits a byte. *)
Definition in_byte (v : Z) : Prop := (0 ≤ v ≤ 255)%Z.

(** The specifications of the script, each with its size: what [main]
    passes to [create_moon_texture]. *)
Definition sized (width height : nat) (specs : list (pystr * pystr * pixel))
    : list (nat * nat * (pystr * pystr * pixel)) :=
  map (λ spec, (width, height, spec)) specs.

Definition all_specs : list (nat * nat * (pystr * pystr * pixel)) :=
  sized 1024 512 moons_1k ++ sized 2048 1024 moons_2k
    ++ sized 2048 1024 asteroids_2k ++ sized 2048 1024 dwarf_planets_2k.

(** [entry] is the file that a call of [create_rocky_texture] for this
    specification alone, from any state of the generator, would have saved. *)
Definition saved_alone (sized_spec : nat * nat * (pystr * pystr * pixel))
    (entry : pystr * jpeg_file) : Prop :=
  let '(width, height, (path, name, color)) := sized_spec in
  ∃ img,
    entry = (path, Jpeg 85 img)
    ∧ ∀ g, ∃ g', create_rocky_texture width height color (hash name) g
                 = Some (img, g').

End Generator.

(** A small generator with which the statements below can be run: a linear
    congruential generator for [random], the sum of the code points for
    [hash], and no smoothing. *)
Definition lcg_seed (seed : Z) : Z := seed.

Definition lcg_randint (a b : Z) (g : Z) : Z * Z :=
  ((a + g mod (b - a + 1))%Z, ((g * 1103515245 + 12345) mod 2147483648)%Z).

Definition no_blur (img : image) : image := img.

Definition sum_hash (s : pystr) : Z := Z.of_N (foldr N.add 0%N s).

End Placeholders.

(** * Properties *)

(** ** Strings and patterns *)

Lemma lstrip_skip s : lstrip s = skip isspace s.
Proof. induction s as [|c s IH]; simpl; [done|]. by rewrite IH. Qed.

Lemma span_skip cls s : span cls s ++ skip cls s = s.
Proof.
  induction s as [|c s IH]; simpl; [done|].
  destruct (cls c); simpl; [by rewrite IH | done].
Qed.

Lemma span_all cls s : Forall (λ c, cls c = true) (span cls s).
Proof.
  induction s as [|c s IH]; simpl; [constructor|].
  destruct (cls c) eqn:E; [by constructor | constructor].
Qed.

Lemma skip_app_all cls ws s :
  Forall (λ c, cls c = true) ws → skip cls (ws ++ s) = skip cls s.
Proof. induction 1 as [|c ws Hc _ IH]; simpl; [done|]. by rewrite Hc. Qed.

Lemma span_app_all cls ws s :
  Forall (λ c, cls c = true) ws → span cls (ws ++ s) = ws ++ span cls s.
Proof. induction 1 as [|c ws Hc _ IH]; simpl; [done|]. by rewrite Hc, IH. Qed.

Lemma skip_stop cls c s : cls c = false → skip cls (c :: s) = c :: s.
Proof. intros H. simpl. by rewrite H. Qed.

Lemma skip_head cls s c s' : skip cls s = c :: s' → cls c = false.
Proof.
  induction s as [|d s IH]; simpl; [done|].
  destruct (cls d) eqn:E; [done|]. intros [= -> ->]. done.
Qed.

Lemma skip_idem cls s : skip cls (skip cls s) = skip cls s.
Proof.
  destruct (skip cls s) as [|c s'] eqn:E; [done|].
  apply skip_stop. eapply skip_head, E.
Qed.

(** Appending text to a line that has a character outside the class does
    not change where the class run ends. *)
Lemma skip_app_stop cls s c s' t :
  skip cls s = c :: s' → skip cls (s ++ t) = c :: s' ++ t.
Proof.
  induction s as [|d s IH]; simpl; [done|].
  destruct (cls d) eqn:E; [done|]. by intros [= -> ->].
Qed.

Lemma skip_length cls s : length (skip cls s) ≤ length s.
Proof.
  induction s as [|c s IH]; simpl; [done|].
  destruct (cls c); simpl; lia.
Qed.

Lemma span_length cls s : length s - length (skip cls s) = length (span cls s).
Proof.
  rewrite <- (span_skip cls s) at 1. rewrite length_app. lia.
Qed.

(** A greedy item is deterministic when what follows it cannot start with
    a character of its class: nothing is ever given back. *)
Lemma greedy_det {A} cls (k : pystr → pystr → option A) taken s :
  (∀ t c rest, cls c = true → k t (c :: rest) = None) →
  greedy cls k taken s = k (taken ++ span cls s) (skip cls s).
Proof.
  intros Hk. revert taken.
  induction s as [|c s IH]; intros taken; simpl.
  - by rewrite app_nil_r.
  - destruct (cls c) eqn:E.
    + rewrite IH, <- app_assoc. simpl.
      destruct (k _ (skip cls s)) eqn:Ek; [done|].
      by rewrite Hk.
    + by rewrite app_nil_r.
Qed.

Lemma re_here_chars p r s group1 :
  re_here (map RChar p ++ r) (p ++ s) group1 = re_here r s group1.
Proof.
  induction p as [|c p IH]; simpl; [done|]. by rewrite N.eqb_refl.
Qed.

Lemma re_here_chars_inv p r s group1 :
  is_Some (re_here (map RChar p ++ r) s group1) →
  ∃ rest, s = p ++ rest ∧ is_Some (re_here r rest group1).
Proof.
  revert s. induction p as [|c p IH]; intros s; simpl.
  - intros H. by exists s.
  - destruct s as [|c' s]; [by intros [? [=]]|].
    destruct (N.eqb_spec c c') as [->|]; [|by intros [? [=]]].
    intros H. destruct (IH _ H) as (rest & -> & Hr). by exists rest.
Qed.

Lemma re_here_chars_mismatch p r c s group1 :
  (∀ p', p ≠ c :: p') → p ≠ [] →
  re_here (map RChar p ++ r) (c :: s) group1 = None.
Proof.
  destruct p as [|d p]; [done|]. intros H _. simpl.
  destruct (N.eqb_spec d c) as [->|]; [|done]. by destruct (H p).
Qed.

(** No whitespace character starts the literal parts of the patterns. *)
Lemma space_not_literal c :
  isspace c = true →
  (∀ p', lit "name:" ≠ c :: p') ∧ (∀ p', lit "rotation_period:" ≠ c :: p')
  ∧ (∀ p', lit "texture: Some(" ≠ c :: p') ∧ c ≠ QUOTE.
Proof.
  intros Hc. repeat split; [intros p' E..|intros E];
    vm_compute in E; simplify_eq; by vm_compute in Hc.
Qed.

(** What [re.match] with the rotation pattern decides. *)
Lemma rotation_match_spec line :
  is_Some (re_match ROTATION_RE line) ↔
  ∃ rest, lstrip line = lit "rotation_period:" ++ rest.
Proof.
  unfold re_match, ROTATION_RE.
  change ([RStar isspace] ++ ?r) with (RStar isspace :: r).
  cbn [re_here]. rewrite greedy_det, lstrip_skip.
  - rewrite <- (app_nil_r (map RChar _)). split.
    + intros H. apply re_here_chars_inv in H as (rest & -> & _). by exists rest.
    + intros [rest ->]. rewrite re_here_chars. by eexists.
  - intros _ c rest Hc. rewrite <- (app_nil_r (map RChar _)).
    apply re_here_chars_mismatch; [|done].
    by apply space_not_literal.
Qed.

Lemma not_quote_spec c : not_quote c = true ↔ c ≠ QUOTE.
Proof.
  unfold not_quote. destruct (N.eqb_spec c QUOTE); simpl; split; try done.
Qed.

(** The quoted group: at least one character other than the quote, up to
    the next quote. *)
Lemma group_quote_spec s name :
  re_here [RGroup not_quote; RChar QUOTE] s [] = Some name ↔
  ∃ rest, s = name ++ QUOTE :: rest ∧ name ≠ [] ∧ Forall (λ c, c ≠ QUOTE) name.
Proof.
  assert (Hk : ∀ t c rest, not_quote c = true →
            re_here [RChar QUOTE] (c :: rest) t = None).
  { intros t c rest Hc. apply not_quote_spec in Hc. cbn [re_here].
    destruct (N.eqb_spec QUOTE c); [by subst | done]. }
  split.
  - destruct s as [|c s]; [done|]. cbn [re_here].
    destruct (not_quote c) eqn:Hc; [|done].
    rewrite (greedy_det _ _ _ _ Hk).
    destruct (skip not_quote s) as [|q rest] eqn:Hs; [done|]. cbn [re_here].
    destruct (N.eqb_spec QUOTE q) as [<-|]; [|done]. intros [= <-].
    exists rest. split_and!; [|done|].
    + simpl. by rewrite <- Hs, span_skip.
    + constructor; [by apply not_quote_spec|].
      eapply Forall_impl; [apply span_all|]. intros ?. apply not_quote_spec.
  - intros (rest & -> & Hne & Hall).
    destruct name as [|c name]; [done|]. apply Forall_cons in Hall as [Hc Hall].
    cbn [re_here app]. apply not_quote_spec in Hc. rewrite Hc.
    assert (Hall' : Forall (λ c, not_quote c = true) name).
    { eapply Forall_impl; [done|]. intros ?. apply not_quote_spec. }
    rewrite (greedy_det _ _ _ _ Hk).
    rewrite span_app_all, skip_app_all by done.
    assert (Hq : not_quote QUOTE = false) by done.
    cbn [span skip]. rewrite Hq. cbn [re_here].
    rewrite N.eqb_refl. by rewrite app_nil_r.
Qed.

(** What [re.match] with the name pattern decides, and what its group 1
    holds. *)
Lemma name_match_spec line name :
  re_match NAME_RE line = Some name ↔
  ∃ after rest,
    lstrip line = lit "name:" ++ after
    ∧ lstrip after = QUOTE :: name ++ QUOTE :: rest
    ∧ name ≠ [] ∧ Forall (λ c, c ≠ QUOTE) name.
Proof.
  unfold re_match, NAME_RE.
  change ([RStar isspace] ++ ?r) with (RStar isspace :: r).
  cbn [re_here]. rewrite greedy_det, !lstrip_skip; cycle 1.
  { intros _ c rest Hc. apply re_here_chars_mismatch; [|done].
    by apply space_not_literal. }
  set (tail := [RChar QUOTE; RGroup not_quote; RChar QUOTE]).
  assert (Htail : ∀ s,
    re_here (RStar isspace :: tail) s [] = Some name ↔
    ∃ rest, skip isspace s = QUOTE :: name ++ QUOTE :: rest
            ∧ name ≠ [] ∧ Forall (λ c, c ≠ QUOTE) name).
  { intros s. cbn [re_here]. rewrite greedy_det; cycle 1.
    { intros _ c rest Hc. unfold tail. cbn [re_here].
      destruct (N.eqb_spec QUOTE c) as [<-|]; [|done].
      by apply space_not_literal in Hc as (_ & _ & _ & ?). }
    unfold tail. destruct (skip isspace s) as [|q s']; cbn [re_here].
    { split; [done | by intros (? & ? & _)]. }
    destruct (N.eqb_spec QUOTE q) as [<-|Hq].
    - fold (re_here [RGroup not_quote; RChar QUOTE] s' []).
      rewrite group_quote_spec. split.
      + intros (rest & -> & ? & ?). by exists rest.
      + intros (rest & [= ->] & ? & ?). by exists rest.
    - split; [done|]. intros (? & E & _). by injection E as -> _. }
  split.
  - intros H. assert (Hs : is_Some (re_here
        (map RChar (lit "name:") ++ RStar isspace :: tail)
        (skip isspace line) [])) by (by eexists).
    apply re_here_chars_inv in Hs as (after & Hafter & _).
    rewrite Hafter, re_here_chars in H.
    apply Htail in H as (rest & ? & ? & ?). exists after, rest.
    by rewrite lstrip_skip.
  - intros (after & rest & -> & Hrest & ? & ?).
    rewrite lstrip_skip in Hrest.
    rewrite re_here_chars. apply Htail. by exists rest.
Qed.

Lemma rotation_not_name line :
  is_Some (re_match ROTATION_RE line) → re_match NAME_RE line = None.
Proof.
  intros [rest Hrot]%rotation_match_spec.
  destruct (re_match NAME_RE line) as [name|] eqn:E; [|done].
  apply name_match_spec in E as (after & _ & E & _).
  rewrite Hrot in E. by vm_compute in E.
Qed.

Lemma name_not_rotation line name :
  re_match NAME_RE line = Some name → ¬ is_Some (re_match ROTATION_RE line).
Proof. intros E H. apply rotation_not_name in H. congruence. Qed.

Lemma name_match_nonempty line name :
  re_match NAME_RE line = Some name → name ≠ [].
Proof. by intros (_ & _ & _ & _ & ? & _)%name_match_spec. Qed.

(** ** The patcher *)

Module PatcherFacts.
Import Patcher.

(** *** Lines of a file *)

Lemma concat_readlines text : concat (readlines text) = text.
Proof.
  induction text as [|c text IH]; [done|]. cbn [readlines].
  destruct (N.eqb c NEWLINE); cbn; [by rewrite IH|].
  destruct (readlines text); cbn in *; by rewrite <- IH.
Qed.

Lemma terminated_cons c line :
  c ≠ NEWLINE → terminated line → terminated (c :: line).
Proof.
  intros Hc (body & -> & Hbody). exists (c :: body). split; [done|].
  apply not_elem_of_cons. split; [congruence | done].
Qed.

Lemma terminated_app line line' :
  NEWLINE ∉ line → terminated line' → terminated (line ++ line').
Proof.
  induction line as [|c line IH]; [done|].
  intros [? ?]%not_elem_of_cons ?. apply terminated_cons; [congruence | auto].
Qed.

Lemma readlines_file_lines text : file_lines (readlines text).
Proof.
  induction text as [|c text IH]; [constructor|]. cbn [readlines].
  destruct (N.eqb_spec c NEWLINE) as [->|Hc].
  { constructor; [|done]. exists []. split; [done|]. apply not_elem_of_nil. }
  destruct (readlines text) as [|line lines]; inversion_clear IH.
  - constructor; [done|]. apply not_elem_of_cons. split; [congruence|].
    apply not_elem_of_nil.
  - constructor; [done|]. apply not_elem_of_cons. split; [congruence | done].
  - constructor; [|done]. by apply terminated_cons.
Qed.

Lemma readlines_terminated line text :
  terminated line → readlines (line ++ text) = line :: readlines text.
Proof.
  intros (body & -> & Hbody).
  induction body as [|c body IH]; [done|].
  apply not_elem_of_cons in Hbody as [Hc Hbody]. cbn [app readlines].
  destruct (N.eqb_spec c NEWLINE); [done|]. by rewrite IH.
Qed.

Lemma readlines_concat lines text :
  Forall terminated lines →
  readlines (concat lines ++ text) = lines ++ readlines text.
Proof.
  induction 1 as [|line lines Hl _ IH]; [done|]. cbn.
  by rewrite <- app_assoc, readlines_terminated, IH.
Qed.

Lemma readlines_nil_inv text : readlines text = [] → text = [].
Proof.
  destruct text as [|c text]; [done|]. cbn [readlines].
  destruct (N.eqb c NEWLINE); [done|]. by destruct (readlines text).
Qed.

(** A text that is empty or ends with a newline has terminated lines only. *)
Lemma readlines_all_terminated text :
  text = [] ∨ last text = Some NEWLINE → Forall terminated (readlines text).
Proof.
  induction text as [|c text IH]; intros H; [constructor|].
  destruct H as [|H]; [done|]. cbn [readlines].
  destruct (N.eqb_spec c NEWLINE) as [->|Hc].
  - constructor.
    + exists []. split; [done|]. apply not_elem_of_nil.
    + apply IH. destruct text; [by left | by right].
  - destruct text as [|c' text]; [by injection H|].
    assert (Hall : Forall terminated (readlines (c' :: text)))
      by (apply IH; by right).
    destruct (readlines (c' :: text)) as [|line lines] eqn:E.
    { by apply readlines_nil_inv in E. }
    apply Forall_cons in Hall as [Hl Hls]. constructor; [|done].
    by apply terminated_cons.
Qed.

Lemma concat_terminated lines :
  Forall terminated lines →
  concat lines = [] ∨ last (concat lines) = Some NEWLINE.
Proof.
  induction lines as [|line lines IH] using rev_ind; [by left|].
  intros [_ [(body & -> & _) _]%Forall_cons]%Forall_app. right.
  rewrite concat_app. cbn. rewrite app_nil_r, !app_assoc. apply last_snoc.
Qed.

(** A non-empty text without newline is one line. *)
Lemma readlines_open line :
  line ≠ [] → NEWLINE ∉ line → readlines line = [line].
Proof.
  induction line as [|c line IH]; [done|].
  intros _ [Hc Hline]%not_elem_of_cons. cbn [readlines].
  destruct (N.eqb_spec c NEWLINE); [congruence|].
  destruct line as [|c' line]; [done|]. by rewrite IH.
Qed.

(** Lines as [readlines] returns them are read back as they are written. *)
Lemma readlines_file_lines_concat lines :
  file_lines lines → readlines (concat lines) = lines.
Proof.
  induction 1 as [|line Hne Hnl|line lines Hl _ IH]; [done| |].
  - cbn. rewrite app_nil_r. by apply readlines_open.
  - cbn. by rewrite readlines_terminated, IH.
Qed.

(** In what [readlines] returns, a line that is not the last is
    terminated, and the last is terminated or has no newline. *)
Lemma file_lines_app_inv lines1 line lines2 :
  file_lines (lines1 ++ line :: lines2) →
  Forall terminated lines1
  ∧ (terminated line ∨ (lines2 = [] ∧ NEWLINE ∉ line)).
Proof.
  induction lines1 as [|l lines1 IH]; cbn; intros H.
  - inversion H; subst; auto.
  - inversion H as [|? ? ? E|? ? ? Hrest]; subst.
    + by destruct lines1.
    + destruct (IH Hrest) as [? ?]. auto.
Qed.

Lemma file_lines_app_tail lines1 lines2 :
  file_lines (lines1 ++ lines2) → file_lines lines2.
Proof.
  induction lines1 as [|l lines1 IH]; [done|]. cbn. intros H.
  inversion H as [|? ? ? E|? ? ? Hrest]; subst; [|by apply IH].
  destruct lines1, lines2; try done. constructor.
Qed.

Lemma truthy_nonempty name : name ≠ [] → truthy (Some name) = true.
Proof. by destruct name. Qed.

Section Loop.

Variable mapping : gmap pystr pystr.

(** *** One iteration *)

Lemma loop_body_name st line name :
  re_match NAME_RE line = Some name →
  loop_body mapping st line =
    Locals (output_lines st ++ [line]) (Some name) false
           (bodies_updated st) (printed st).
Proof.
  intros E. unfold loop_body. rewrite E. cbn [current_body_name texture_added].
  rewrite (bool_decide_eq_false_2 _ (name_not_rotation _ _ E)).
  by rewrite andb_false_r.
Qed.

Lemma loop_body_anchor st line name :
  is_rotation_line line →
  current_body_name st = Some name → name ≠ [] → texture_added st = false →
  loop_body mapping st line =
    match mapping !! name with
    | Some path =>
        Locals (output_lines st ++ [line; texture_line (indent_of line) path])
               None true (S (bodies_updated st))
               (printed st ++ [lit "Added texture for: " ++ name])
    | None =>
        Locals (output_lines st ++ [line]) None false
               (bodies_updated st) (printed st)
    end.
Proof.
  intros Hrot Hname Hne Hadded. unfold loop_body.
  rewrite (rotation_not_name _ Hrot), Hname, Hadded, truthy_nonempty by done.
  rewrite (bool_decide_eq_true_2 _ Hrot).
  cbn -[texture_line]. destruct (mapping !! name); cbn -[texture_line]; [|done].
  by rewrite <- app_assoc.
Qed.

Lemma loop_body_copy st line :
  ¬ is_name_line line →
  ¬ is_rotation_line line ∨ truthy (current_body_name st) = false
    ∨ texture_added st = true →
  loop_body mapping st line =
    Locals (output_lines st ++ [line]) (current_body_name st)
           (texture_added st) (bodies_updated st) (printed st).
Proof.
  intros Hname Hidle. unfold loop_body.
  destruct (re_match NAME_RE line) eqn:E; [by destruct Hname; eexists|].
  destruct Hidle as [H|[H|H]].
  - by rewrite (bool_decide_eq_false_2 _ H), andb_false_r.
  - by rewrite H.
  - by rewrite H, andb_false_r.
Qed.

(** An iteration either copies its line or copies it and adds the texture
    line of a body of the dictionary after it; the second only on a
    [rotation_period:] line. *)
Lemma loop_body_cases st line :
  let st' := loop_body mapping st line in
  (output_lines st' = output_lines st ++ [line]
   ∧ bodies_updated st' = bodies_updated st)
  ∨ (∃ name path,
       is_rotation_line line ∧ mapping !! name = Some path
       ∧ output_lines st' =
           output_lines st ++ [line; texture_line (indent_of line) path]
       ∧ bodies_updated st' = S (bodies_updated st)).
Proof.
  cbn zeta. destruct (re_match NAME_RE line) as [name|] eqn:E.
  { left. by rewrite (loop_body_name _ _ _ E). }
  assert (Hn : ¬ is_name_line line) by (by intros [? ?]; congruence).
  assert (Hcopy : ¬ is_rotation_line line
                  ∨ truthy (current_body_name st) = false
                  ∨ texture_added st = true →
          output_lines (loop_body mapping st line) = output_lines st ++ [line]
          ∧ bodies_updated (loop_body mapping st line) = bodies_updated st).
  { intros H. by rewrite loop_body_copy. }
  destruct (decide (is_rotation_line line)) as [Hrot|Hrot]; [|by auto].
  destruct (current_body_name st) as [[|c name]|] eqn:Hc; [by auto| |by auto].
  destruct (texture_added st) eqn:Ha; [by auto|].
  rewrite (loop_body_anchor _ _ _ Hrot Hc) by done.
  destruct (mapping !! (c :: name)) as [path|] eqn:Hm; [|by left].
  right. by exists (c :: name), path.
Qed.

(** *** The loop *)

Lemma run_app st lines1 lines2 :
  run mapping st (lines1 ++ lines2) = run mapping (run mapping st lines1) lines2.
Proof. apply fold_left_app. Qed.

Lemma run_cons st line lines :
  run mapping st (line :: lines) = run mapping (loop_body mapping st line) lines.
Proof. done. Qed.

(** The loop decides by the cursor alone and only adds to what has been
    accumulated. *)
Lemma loop_body_extend st d line :
  loop_body mapping (extend st d) line = extend st (loop_body mapping d line).
Proof.
  unfold loop_body, extend.
  generalize (bool_decide (is_Some (re_match ROTATION_RE line))) as rot.
  intros rot. destruct d as [out name added n msgs].
  destruct (re_match NAME_RE line) as [nm|]; cbn -[texture_line].
  - destruct nm, rot; cbn -[texture_line]; rewrite ?app_assoc; try done.
    destruct (mapping !! _); cbn -[texture_line];
      by rewrite ?app_assoc, ?Nat.add_succ_r.
  - destruct name as [[|c nm]|], added, rot; cbn -[texture_line];
      rewrite ?app_assoc; try done.
    destruct (mapping !! _); cbn -[texture_line];
      by rewrite ?app_assoc, ?Nat.add_succ_r.
Qed.

Lemma run_extend st d lines :
  run mapping (extend st d) lines = extend st (run mapping d lines).
Proof.
  revert d. induction lines as [|line lines IH]; intros d; [done|].
  by rewrite !run_cons, loop_body_extend, IH.
Qed.

Lemma extend_start st :
  extend st (start (current_body_name st) (texture_added st)) = st.
Proof.
  destruct st. unfold extend, start. cbn.
  by rewrite !app_nil_r, Nat.add_0_r.
Qed.

Lemma run_from st lines :
  run mapping st lines =
    extend st (run mapping (start (current_body_name st) (texture_added st)) lines).
Proof. by rewrite <- run_extend, extend_start. Qed.

(** Lines that are neither name lines nor anchors are copied. *)
Lemma run_copy st lines :
  Forall (λ l, ¬ is_name_line l ∧ ¬ is_rotation_line l) lines →
  run mapping st lines =
    Locals (output_lines st ++ lines) (current_body_name st)
           (texture_added st) (bodies_updated st) (printed st).
Proof.
  intros H. revert st. induction H as [|line lines [Hn Hr] _ IH]; intros st.
  - destruct st. cbn. by rewrite app_nil_r.
  - rewrite run_cons, loop_body_copy, IH by auto. cbn.
    by rewrite <- app_assoc.
Qed.

(** With no record open, every line up to the next name line is copied,
    the [rotation_period:] lines too. *)
Lemma run_idle st lines :
  Forall (λ l, ¬ is_name_line l) lines →
  pending st = 0 →
  run mapping st lines =
    Locals (output_lines st ++ lines) (current_body_name st)
           (texture_added st) (bodies_updated st) (printed st).
Proof.
  intros H. revert st. induction H as [|line lines Hn _ IH]; intros st Hp.
  - destruct st. cbn. by rewrite app_nil_r.
  - assert (Hidle : truthy (current_body_name st) = false
                    ∨ texture_added st = true).
    { unfold pending in Hp. destruct (truthy _); [|by left].
      destruct (texture_added st); [by right | done]. }
    rewrite run_cons, loop_body_copy, IH by tauto. cbn.
    by rewrite <- app_assoc.
Qed.

(** A name line opens a record whatever the cursor was. *)
Lemma run_name_first st line lines :
  is_name_line line →
  run mapping st (line :: lines) =
    extend st (process_lines mapping (line :: lines)).
Proof.
  intros [name E]. unfold process_lines.
  rewrite !run_cons, !(loop_body_name _ _ _ E).
  rewrite (run_from (Locals _ _ _ _ _)), (run_from (Locals ([] ++ _) _ _ _ _)).
  cbn. unfold extend. cbn. by rewrite <- !app_assoc.
Qed.

(** What follows a record: nothing, or the name line of the next record.
    Either way the rest of the file is processed as if it stood alone. *)
Lemma run_next_record st post :
  post = [] ∨ (∃ line post', post = line :: post' ∧ is_name_line line) →
  let st' := run mapping st post in
  let alone := process_lines mapping post in
  output_lines st' = output_lines st ++ output_lines alone
  ∧ bodies_updated st' = bodies_updated st + bodies_updated alone
  ∧ printed st' = printed st ++ printed alone.
Proof.
  intros [->|(line & post' & -> & Hn)]; cbn zeta.
  - cbn. by rewrite !app_nil_r, Nat.add_0_r.
  - by rewrite run_name_first.
Qed.

(** The output is the input with texture lines added after anchors, and
    [bodies_updated] counts them. *)
Lemma run_patched name added lines :
  let st := run mapping (start name added) lines in
  patched mapping lines (output_lines st) (bodies_updated st).
Proof.
  cbn zeta. revert name added.
  induction lines as [|line lines IH]; intros name added; [constructor|].
  rewrite run_cons, run_from.
  pose proof (loop_body_cases (start name added) line) as Hcases.
  cbn zeta in Hcases. cbn [extend output_lines bodies_updated].
  destruct Hcases as [[-> ->]|(nm & path & Hrot & Hm & -> & ->)].
  - cbn. by constructor.
  - cbn -[texture_line]. by econstructor.
Qed.

Lemma patched_length lines out n :
  patched mapping lines out n → length out = length lines + n.
Proof. induction 1; cbn; lia. Qed.

Lemma pending_le st : pending st ≤ 1.
Proof. unfold pending. case_match; lia. Qed.

Lemma pending_copy st out n msgs :
  pending (Locals out (current_body_name st) (texture_added st) n msgs)
  = pending st.
Proof. done. Qed.

(** At most one texture line is added per name line. *)
Lemma run_bound st lines :
  bodies_updated (run mapping st lines) + pending (run mapping st lines)
  ≤ bodies_updated st + pending st + name_lines lines.
Proof.
  revert st. induction lines as [|line lines IH]; intros st; [cbn; lia|].
  rewrite run_cons. etrans; [apply IH|].
  unfold name_lines. rewrite filter_cons.
  destruct (decide (is_name_line line)) as [[name E]|Hn].
  - rewrite (loop_body_name _ _ _ E). cbn [bodies_updated length].
    pose proof (pending_le (Locals (output_lines st ++ [line]) (Some name)
                              false (bodies_updated st) (printed st))).
    lia.
  - assert (Hcopy : ¬ is_rotation_line line
                    ∨ truthy (current_body_name st) = false
                    ∨ texture_added st = true →
            bodies_updated (loop_body mapping st line)
              + pending (loop_body mapping st line)
            = bodies_updated st + pending st).
    { intros H. by rewrite loop_body_copy, pending_copy. }
    destruct (decide (is_rotation_line line)) as [Hrot|Hrot];
      [|rewrite Hcopy by auto; lia].
    destruct (current_body_name st) as [[|c name]|] eqn:Hc;
      [rewrite Hcopy by auto; lia| |rewrite Hcopy by auto; lia].
    destruct (texture_added st) eqn:Ha; [rewrite Hcopy by auto; lia|].
    rewrite (loop_body_anchor _ _ _ Hrot Hc) by done.
    unfold pending at 2. rewrite Hc, Ha.
    destruct (mapping !! (c :: name)); cbn; lia.
Qed.

Lemma patched_head line lines out n :
  patched mapping (line :: lines) out n → head out = Some line.
Proof. by inversion 1. Qed.

Lemma run_head name added lines :
  head (output_lines (run mapping (start name added) lines)) = head lines.
Proof.
  destruct lines as [|line lines]; [done|].
  eapply patched_head, run_patched.
Qed.

(** A record with its anchor, from the name line on, whatever came before. *)
Lemma run_record st nl mid rl name :
  re_match NAME_RE nl = Some name →
  Forall (λ l, ¬ is_name_line l ∧ ¬ is_rotation_line l) mid →
  is_rotation_line rl →
  run mapping st (nl :: mid ++ [rl]) =
    match mapping !! name with
    | Some path =>
        Locals (output_lines st
                  ++ nl :: mid ++ [rl; texture_line (indent_of rl) path])
               None true (S (bodies_updated st))
               (printed st ++ [lit "Added texture for: " ++ name])
    | None =>
        Locals (output_lines st ++ nl :: mid ++ [rl]) None false
               (bodies_updated st) (printed st)
    end.
Proof.
  intros E Hmid Hrot.
  rewrite run_cons, run_app, (loop_body_name _ _ _ E), (run_copy _ mid) by done.
  cbn [run fold_left].
  rewrite (loop_body_anchor _ _ name Hrot)
    by eauto using name_match_nonempty.
  cbn [output_lines bodies_updated printed].
  destruct (mapping !! name); by rewrite <- !app_assoc.
Qed.

(** A record without anchor, from the name line on. *)
Lemma run_record_no_anchor st nl body name :
  re_match NAME_RE nl = Some name →
  Forall (λ l, ¬ is_name_line l ∧ ¬ is_rotation_line l) body →
  run mapping st (nl :: body) =
    Locals (output_lines st ++ nl :: body) (Some name) false
           (bodies_updated st) (printed st).
Proof.
  intros E Hbody.
  rewrite run_cons, (loop_body_name _ _ _ E), (run_copy _ body) by done.
  cbn. by rewrite <- app_assoc.
Qed.

(** While the open record, if any, has a name outside the dictionary,
    every line up to the next name line is copied. *)
Lemma run_unmapped st body :
  (∀ name, current_body_name st = Some name → mapping !! name = None) →
  Forall (λ l, ¬ is_name_line l) body →
  let st' := run mapping st body in
  output_lines st' = output_lines st ++ body
  ∧ bodies_updated st' = bodies_updated st
  ∧ printed st' = printed st.
Proof.
  intros Hst Hbody. cbn zeta. revert st Hst.
  induction Hbody as [|line body Hn _ IH]; intros st Hst.
  { cbn. by rewrite app_nil_r. }
  rewrite run_cons.
  assert (Hstep : ∃ name' added',
    loop_body mapping st line =
      Locals (output_lines st ++ [line]) name' added'
             (bodies_updated st) (printed st)
    ∧ (∀ name, name' = Some name → mapping !! name = None)).
  { destruct (decide (is_rotation_line line)) as [Hrot|Hrot];
      [|eexists _, _; split; [by apply loop_body_copy; auto | done]].
    destruct (current_body_name st) as [[|c name]|] eqn:Hc;
      [eexists _, _; split;
         [apply loop_body_copy; rewrite ?Hc; by auto | by rewrite Hc]| |
       eexists _, _; split;
         [apply loop_body_copy; rewrite ?Hc; by auto | by rewrite Hc]].
    destruct (texture_added st) eqn:Ha;
      [eexists _, _; split;
         [apply loop_body_copy; rewrite ?Hc; by auto | by rewrite Hc]|].
    rewrite (loop_body_anchor _ _ _ Hrot Hc), (Hst _ eq_refl) by done.
    by eexists _, _. }
  destruct Hstep as (name' & added' & -> & Hst').
  destruct (IH (Locals (output_lines st ++ [line]) name' added'
                       (bodies_updated st) (printed st)) Hst')
    as (-> & -> & ->).
  cbn. by rewrite <- app_assoc.
Qed.

(** The output around a record that has its anchor. *)
Lemma output_after_anchor pre nl mid rl post name :
  re_match NAME_RE nl = Some name →
  Forall (λ l, ¬ is_name_line l ∧ ¬ is_rotation_line l) mid →
  is_rotation_line rl →
  let added :=
    match mapping !! name with
    | Some path => [texture_line (indent_of rl) path]
    | None => []
    end in
  output_lines (process_lines mapping (pre ++ nl :: mid ++ rl :: post)) =
    output_lines (process_lines mapping pre)
      ++ nl :: mid ++ rl :: added
      ++ output_lines
           (run mapping (start None (bool_decide (is_Some (mapping !! name)))) post).
Proof.
  intros E Hmid Hrot. cbn zeta. unfold process_lines.
  replace (pre ++ nl :: mid ++ rl :: post)
    with (pre ++ (nl :: mid ++ [rl]) ++ post)
    by (by simplify_list_eq).
  rewrite !run_app, (run_record _ _ _ _ _ E Hmid Hrot), run_from.
  destruct (mapping !! name); cbn; by simplify_list_eq.
Qed.

(** *** The claims about the loop *)

(** C1, amended.  When a name line carrying a name of the dictionary is
    followed by a [rotation_period:] line with no name line and no other
    [rotation_period:] line in between, the output lines are: the output for
    what precedes, the lines from the name line to the anchor unchanged,
    then one added line, then the output for what follows, which starts
    with the next input line.  The added line is made of as many space
    characters as the anchor has leading whitespace characters, the text
    [texture: Some(], the path of the dictionary between double quotes, the
    text [),] and a newline. *)
Theorem texture_line_after_anchor pre nl mid rl post name path :
  re_match NAME_RE nl = Some name →
  mapping !! name = Some path →
  Forall (λ l, ¬ is_name_line l ∧ ¬ is_rotation_line l) mid →
  is_rotation_line rl →
  let rest := output_lines (run mapping (start None true) post) in
  output_lines (process_lines mapping (pre ++ nl :: mid ++ rl :: post)) =
    output_lines (process_lines mapping pre)
      ++ nl :: mid ++ rl :: texture_line (indent_of rl) path :: rest
  ∧ texture_line (indent_of rl) path =
      replicate (length (leading_whitespace rl)) SPACE
        ++ lit "texture: Some(" ++ [QUOTE] ++ path ++ [QUOTE]
        ++ lit ")," ++ [NEWLINE]
  ∧ head rest = head post.
Proof.
  intros E Hm Hmid Hrot rest. split_and!.
  - rewrite (output_after_anchor _ _ _ _ _ _ E Hmid Hrot), Hm. done.
  - unfold texture_line, indent_of, leading_whitespace.
    by rewrite lstrip_skip, span_length.
  - apply run_head.
Qed.

(** The lines of a record whose name is not in the dictionary, from its
    name line up to the next name line or the end of the input, come out as
    they went in, between the output for what precedes and the output for
    what follows. *)
Lemma unmapped_record_copied pre nl body post name :
  re_match NAME_RE nl = Some name →
  mapping !! name = None →
  Forall (λ l, ¬ is_name_line l) body →
  post = [] ∨ (∃ line post', post = line :: post' ∧ is_name_line line) →
  output_lines (process_lines mapping (pre ++ nl :: body ++ post)) =
    output_lines (process_lines mapping pre)
      ++ (nl :: body) ++ output_lines (process_lines mapping post).
Proof.
  intros E Hm Hbody Hpost. unfold process_lines.
  rewrite run_app, run_cons, run_app.
  destruct (run_next_record
              (run mapping (loop_body mapping (run mapping initial pre) nl) body)
              post Hpost) as (-> & _ & _).
  rewrite (loop_body_name _ _ _ E).
  match goal with |- context [run mapping ?st body] =>
    destruct (run_unmapped st body) as (-> & _ & _); [|done|] end.
  { cbn. by intros ? [= <-]. }
  cbn. by simplify_list_eq.
Qed.

(** C4.  In a record, the first [rotation_period:] line after the name line
    is the anchor: once it is processed the body name is cleared, the lines
    that follow up to the next name line are copied, further
    [rotation_period:] lines among them included, and the record adds at
    most one texture line to the output and at most one to the count.  Over
    a whole file the count is at most the number of name lines. *)
Theorem one_texture_line_per_record :
  (∀ lines, bodies_updated (process_lines mapping lines) ≤ name_lines lines)
  ∧ (∀ pre nl before rl after post name,
       re_match NAME_RE nl = Some name →
       Forall (λ l, ¬ is_name_line l ∧ ¬ is_rotation_line l) before →
       is_rotation_line rl →
       Forall (λ l, ¬ is_name_line l) after →
       post = [] ∨ (∃ line post', post = line :: post' ∧ is_name_line line) →
       let added :=
         match mapping !! name with
         | Some path => [texture_line (indent_of rl) path]
         | None => []
         end in
       let st := process_lines mapping (pre ++ nl :: before ++ rl :: after ++ post) in
       current_body_name (process_lines mapping (pre ++ nl :: before ++ [rl]))
         = None
       ∧ output_lines st =
           output_lines (process_lines mapping pre)
             ++ nl :: before ++ rl :: added ++ after
             ++ output_lines (process_lines mapping post)
       ∧ bodies_updated st =
           bodies_updated (process_lines mapping pre) + length added
             + bodies_updated (process_lines mapping post)
       ∧ length added ≤ 1).
Proof.
  split.
  { intros lines. pose proof (run_bound initial lines) as H.
    fold (process_lines mapping lines) in H. cbn in H. lia. }
  intros pre nl before rl after post name E Hbefore Hrot Hafter Hpost.
  cbn zeta. unfold process_lines. split_and!.
  - rewrite run_app, (run_record _ _ _ _ _ E Hbefore Hrot).
    by destruct (mapping !! name).
  - replace (pre ++ nl :: before ++ rl :: after ++ post)
      with (pre ++ (nl :: before ++ [rl]) ++ after ++ post)
      by (by simplify_list_eq).
    rewrite !run_app, (run_record _ _ _ _ _ E Hbefore Hrot).
    match goal with |- context [run mapping (run mapping ?st after) post] =>
      destruct (run_next_record (run mapping st after) post Hpost)
        as (-> & _ & _);
      assert (Hp : pending st = 0) by (by destruct (mapping !! name));
      rewrite (run_idle st after Hafter Hp) end.
    unfold process_lines. destruct (mapping !! name); cbn; by simplify_list_eq.
  - replace (pre ++ nl :: before ++ rl :: after ++ post)
      with (pre ++ (nl :: before ++ [rl]) ++ after ++ post)
      by (by simplify_list_eq).
    rewrite !run_app, (run_record _ _ _ _ _ E Hbefore Hrot).
    match goal with |- context [run mapping (run mapping ?st after) post] =>
      destruct (run_next_record (run mapping st after) post Hpost)
        as (_ & -> & _);
      assert (Hp : pending st = 0) by (by destruct (mapping !! name));
      rewrite (run_idle st after Hafter Hp) end.
    unfold process_lines. destruct (mapping !! name); cbn; lia.
  - destruct (mapping !! name); cbn; lia.
Qed.

(** C10.  A line that reads, after optional whitespace, [name:], optional
    whitespace and two double quotes with nothing between them, is not
    matched by the name pattern; the loop copies it and leaves the body
    name, the texture flag and the count as they were. *)
Theorem empty_name_not_recognized st ws ws' rest :
  Forall (λ c, isspace c = true) ws →
  Forall (λ c, isspace c = true) ws' →
  let line := ws ++ lit "name:" ++ ws' ++ [QUOTE; QUOTE] ++ rest in
  re_match NAME_RE line = None
  ∧ loop_body mapping st line =
      Locals (output_lines st ++ [line]) (current_body_name st)
             (texture_added st) (bodies_updated st) (printed st).
Proof.
  intros Hws Hws' line.
  assert (Hstrip : lstrip line = lit "name:" ++ ws' ++ [QUOTE; QUOTE] ++ rest).
  { unfold line. rewrite lstrip_skip, skip_app_all by done.
    change (lit "name:") with (110%N :: lit "ame:"). by apply skip_stop. }
  assert (Hname : re_match NAME_RE line = None).
  { destruct (re_match NAME_RE line) as [name|] eqn:E; [|done]. exfalso.
    apply name_match_spec in E as (after & rest' & E1 & E2 & Hne & Hall).
    rewrite Hstrip in E1. apply app_inv_head in E1 as <-.
    rewrite lstrip_skip, skip_app_all in E2 by done.
    change ([QUOTE; QUOTE] ++ rest) with (QUOTE :: QUOTE :: rest) in E2.
    rewrite skip_stop in E2 by done. injection E2 as E2.
    destruct name as [|c name]; [done|]. injection E2 as <- _.
    by apply Forall_cons in Hall as [? _]. }
  split; [done|]. apply loop_body_copy.
  - intros [? ?]. congruence.
  - left. intros [rest' E]%rotation_match_spec.
    rewrite Hstrip in E. by vm_compute in E.
Qed.

End Loop.

(** *** Texture lines read back as input *)

Lemma lstrip_texture_line n path :
  lstrip (texture_line n path) =
    lit "texture: Some(" ++ [QUOTE] ++ path ++ [QUOTE] ++ lit ")," ++ [NEWLINE].
Proof.
  unfold texture_line. rewrite lstrip_skip, skip_app_all.
  - change (lit "texture: Some(") with (116%N :: lit "exture: Some(").
    by apply skip_stop.
  - by apply Forall_replicate.
Qed.

Lemma texture_line_not_name n path : ¬ is_name_line (texture_line n path).
Proof.
  intros [name (after & _ & E & _)%name_match_spec].
  rewrite lstrip_texture_line in E. by vm_compute in E.
Qed.

Lemma texture_line_not_rotation n path :
  ¬ is_rotation_line (texture_line n path).
Proof.
  intros [rest E]%rotation_match_spec.
  rewrite lstrip_texture_line in E. by vm_compute in E.
Qed.

Lemma texture_line_terminated n path :
  NEWLINE ∉ path → terminated (texture_line n path).
Proof.
  intros Hpath.
  exists (replicate n SPACE ++ lit "texture: Some(" ++ [QUOTE] ++ path
            ++ [QUOTE] ++ lit "),").
  split; [unfold texture_line; by simplify_list_eq|].
  rewrite !not_elem_of_app. split_and!; try done.
  - intros [? _]%elem_of_replicate. done.
  - compute_done.
  - by intros ?%list_elem_of_singleton.
  - by intros ?%list_elem_of_singleton.
  - compute_done.
Qed.

Lemma rotation_line_app line text :
  is_rotation_line line →
  is_rotation_line (line ++ text) ∧ indent_of (line ++ text) = indent_of line.
Proof.
  intros [rest E]%rotation_match_spec. rewrite lstrip_skip in E.
  change (lit "rotation_period:") with (114%N :: lit "otation_period:") in E.
  pose proof (skip_app_stop _ _ _ _ text E) as E'. split.
  - apply rotation_match_spec. exists (rest ++ text).
    by rewrite lstrip_skip, E'.
  - unfold indent_of. rewrite !lstrip_skip.
    replace (skip isspace (line ++ text)) with (skip isspace line ++ text)
      by (by rewrite E', E).
    rewrite !length_app. lia.
Qed.

(** No path of the dictionary holds a newline. *)
Lemma texture_path_one_line name path :
  TEXTURE_MAPPING !! name = Some path → NEWLINE ∉ path.
Proof.
  assert (H : map_Forall (λ _ p, NEWLINE ∉ p) TEXTURE_MAPPING) by compute_done.
  apply H.
Qed.

Lemma patched_terminated lines out n :
  patched TEXTURE_MAPPING lines out n →
  Forall terminated lines → Forall terminated out.
Proof.
  induction 1 as [|line lines out n _ IH|line name path lines out n _ Hm _ IH];
    [done|..]; intros [Hl Hls]%Forall_cons; repeat constructor; auto.
  eapply texture_line_terminated, texture_path_one_line, Hm.
Qed.

Lemma process_lines_terminated lines :
  Forall terminated lines →
  Forall terminated (output_lines (process_lines TEXTURE_MAPPING lines)).
Proof.
  intros H. eapply patched_terminated; [|done].
  apply (run_patched TEXTURE_MAPPING None false lines).
Qed.


(** *** The claims about [process_ron_file] *)

Lemma process_ron_file_returns w input_file output_file text :
  files w !! input_file = Some text →
  let st := process_lines TEXTURE_MAPPING (readlines text) in
  process_ron_file w input_file output_file =
    Returns PyNone
      (World (<[output_file := writelines (output_lines st)]> (files w))
             (stdout w ++ printed st
                ++ summary (bodies_updated st) output_file)).
Proof. intros H. unfold process_ron_file. by rewrite H. Qed.

(** C3, amended.  With the lines of the input file as [readlines] gives
    them: every line read is in [output_lines], unchanged and in its order,
    and [output_lines] differs from the lines read only by the texture lines
    added, each directly after a [rotation_period:] line; the text written
    to the output file is [output_lines] put end to end; when the text read
    is empty or ends with a newline, the lines of the written text are
    exactly [output_lines].  For a record whose name is not a key of the
    dictionary, from its name line up to the next name line or the end of
    the file, no line is added: its lines are written as they were read,
    between what is written for what precedes and for what follows, and
    they are lines of the written text as they were lines of the text read. *)
Theorem lines_read_preserved :
  (∀ mapping lines,
     let st := process_lines mapping lines in
     patched mapping lines (output_lines st) (bodies_updated st))
  ∧ (∀ w input_file output_file text,
       files w !! input_file = Some text →
       let st := process_lines TEXTURE_MAPPING (readlines text) in
       ∃ w',
         process_ron_file w input_file output_file = Returns PyNone w'
         ∧ files w' !! output_file = Some (writelines (output_lines st))
         ∧ patched TEXTURE_MAPPING (readlines text) (output_lines st)
                   (bodies_updated st)
         ∧ (text = [] ∨ last text = Some NEWLINE →
            readlines (writelines (output_lines st)) = output_lines st))
  ∧ (∀ w input_file output_file text pre nl body post name,
       files w !! input_file = Some text →
       readlines text = pre ++ nl :: body ++ post →
       re_match NAME_RE nl = Some name →
       TEXTURE_MAPPING !! name = None →
       Forall (λ l, ¬ is_name_line l) body →
       post = [] ∨ (∃ line post', post = line :: post' ∧ is_name_line line) →
       let before := output_lines (process_lines TEXTURE_MAPPING pre) in
       let after := output_lines (process_lines TEXTURE_MAPPING post) in
       let written :=
         writelines before ++ writelines (nl :: body) ++ writelines after in
       ∃ w',
         process_ron_file w input_file output_file = Returns PyNone w'
         ∧ output_lines (process_lines TEXTURE_MAPPING (readlines text))
           = before ++ (nl :: body) ++ after
         ∧ files w' !! output_file = Some written
         ∧ readlines written
           = before ++ (nl :: body) ++ readlines (writelines after)).
Proof.
  split_and!.
  - intros mapping lines. apply run_patched.
  - intros w input_file output_file text Hf st. eexists. split_and!.
    + by apply process_ron_file_returns.
    + cbn [files]. apply lookup_insert_eq.
    + apply (run_patched TEXTURE_MAPPING None false).
    + intros Hend. unfold writelines.
      rewrite <- (app_nil_r (concat _)), readlines_concat
        by (by apply process_lines_terminated, readlines_all_terminated).
      cbn. by rewrite app_nil_r.
  - intros w input_file output_file text pre nl body post name
      Hf Hlines E Hm Hbody Hpost before after written.
    assert (Hout :
      output_lines (process_lines TEXTURE_MAPPING (readlines text))
      = before ++ (nl :: body) ++ after).
    { rewrite Hlines. by eapply unmapped_record_copied. }
    eexists. split_and!.
    + by apply process_ron_file_returns.
    + done.
    + cbn [files]. rewrite lookup_insert_eq, Hout. f_equal.
      unfold written, writelines. by rewrite !concat_app.
    + pose proof (readlines_file_lines text) as Hfl. rewrite Hlines in Hfl.
      unfold written, writelines.
      destruct Hpost as [->|(line & post' & -> & Hline)].
      * rewrite app_nil_r in Hfl.
        pose proof (file_lines_app_tail _ _ Hfl) as Hrec.
        apply file_lines_app_inv in Hfl as [Hpre _].
        subst after. cbn [process_lines run fold_left initial output_lines
          concat readlines].
        rewrite !app_nil_r, readlines_concat
          by (by apply process_lines_terminated).
        change (nl ++ concat body) with (concat (nl :: body)).
        by rewrite readlines_file_lines_concat.
      * replace (pre ++ nl :: body ++ line :: post')
          with ((pre ++ nl :: body) ++ line :: post') in Hfl
          by (by simplify_list_eq).
        apply file_lines_app_inv in Hfl as [[Hpre Hrec]%Forall_app _].
        rewrite app_assoc, <- concat_app, readlines_concat.
        -- by rewrite <- app_assoc.
        -- apply Forall_app. split; [|done].
           by apply process_lines_terminated.
Qed.

(** C2, amended.  A call of [process_ron_file] on an existing file returns
    [None]; the count [bodies_updated], which it prints in its summary line,
    is the number of texture lines it has added: for every dictionary and
    every input, the output lines are the input lines with that many
    texture lines added, so the output has that many lines more. *)
Theorem count_printed_not_returned w input_file output_file text :
  files w !! input_file = Some text →
  let st := process_lines TEXTURE_MAPPING (readlines text) in
  process_ron_file w input_file output_file =
    Returns PyNone
      (World (<[output_file := writelines (output_lines st)]> (files w))
             (stdout w ++ printed st
                ++ summary (bodies_updated st) output_file))
  ∧ ∀ mapping lines,
      let st := process_lines mapping lines in
      patched mapping lines (output_lines st) (bodies_updated st)
      ∧ length (output_lines st) = length lines + bodies_updated st.
Proof.
  intros H. split; [by apply process_ron_file_returns|].
  intros mapping lines.
  pose proof (run_patched mapping None false lines) as Hp. cbn zeta in *.
  split; [done|]. by eapply patched_length.
Qed.

(** C6.  When the file has a name line with a name of the dictionary and no
    [rotation_period:] line between it and the next name line or the end of
    the file, [process_ron_file] ends normally; the lines of that record are
    written as they were read, with no texture line, between the output for
    what precedes and the output for what follows; the count and the
    messages printed are those of the rest of the file alone. *)
Theorem record_without_anchor_skipped
    w input_file output_file text pre nl body post name path :
  files w !! input_file = Some text →
  readlines text = pre ++ nl :: body ++ post →
  re_match NAME_RE nl = Some name →
  TEXTURE_MAPPING !! name = Some path →
  Forall (λ l, ¬ is_name_line l ∧ ¬ is_rotation_line l) body →
  post = [] ∨ (∃ line post', post = line :: post' ∧ is_name_line line) →
  let before := process_lines TEXTURE_MAPPING pre in
  let after := process_lines TEXTURE_MAPPING post in
  process_ron_file w input_file output_file =
    Returns PyNone
      (World (<[output_file :=
                  writelines (output_lines before ++ nl :: body
                                ++ output_lines after)]> (files w))
             (stdout w ++ (printed before ++ printed after)
                ++ summary (bodies_updated before + bodies_updated after)
                     output_file)).
Proof.
  intros Hf Hlines E _ Hbody Hpost before after.
  rewrite (process_ron_file_returns _ _ _ _ Hf). cbn zeta. rewrite Hlines.
  unfold process_lines at 1 2 3.
  replace (pre ++ nl :: body ++ post) with (pre ++ (nl :: body) ++ post)
    by (by simplify_list_eq).
  rewrite (run_app _ _ pre), (run_app _ _ (nl :: body)),
    (run_record_no_anchor _ _ _ _ _ E Hbody).
  match goal with |- context [run TEXTURE_MAPPING ?st post] =>
    pose proof (run_next_record TEXTURE_MAPPING st post Hpost) as Hx
  end.
  cbn zeta in Hx. destruct Hx as (-> & -> & ->).
  cbn [output_lines bodies_updated printed]. fold before after.
  by rewrite <- !app_assoc.
Qed.

(** The second pass over a patched record: the anchor gets its texture
    line again, and the texture line of the first pass is copied after it. *)
Lemma run_patched_record st nl mid rl name path :
  re_match NAME_RE nl = Some name →
  TEXTURE_MAPPING !! name = Some path →
  Forall (λ l, ¬ is_name_line l ∧ ¬ is_rotation_line l) mid →
  is_rotation_line rl →
  let tl := texture_line (indent_of rl) path in
  run TEXTURE_MAPPING st (nl :: mid ++ [rl; tl]) =
    Locals (output_lines st ++ nl :: mid ++ [rl; tl; tl]) None true
           (S (bodies_updated st))
           (printed st ++ [lit "Added texture for: " ++ name]).
Proof.
  intros E Hm Hmid Hrot tl.
  replace (nl :: mid ++ [rl; tl]) with ((nl :: mid ++ [rl]) ++ [tl])
    by (by simplify_list_eq).
  rewrite (run_app _ _ (nl :: mid ++ [rl])).
  rewrite (run_record _ _ _ _ _ _ E Hmid Hrot), Hm. fold tl.
  cbn [run fold_left]. rewrite loop_body_copy.
  - cbn [output_lines current_body_name texture_added bodies_updated printed].
    by simplify_list_eq.
  - apply texture_line_not_name.
  - by right; right.
Qed.

(** The texts two calls in a row write: the second call reads what the
    first has written. *)
Lemma second_pass_text
    w input_file output_file output_file2 text pre nl mid rl post name path :
  files w !! input_file = Some text →
  readlines text = pre ++ nl :: mid ++ rl :: post →
  re_match NAME_RE nl = Some name →
  TEXTURE_MAPPING !! name = Some path →
  Forall (λ l, ¬ is_name_line l ∧ ¬ is_rotation_line l) mid →
  is_rotation_line rl →
  let tl := texture_line (indent_of rl) path in
  let once := output_lines (process_lines TEXTURE_MAPPING pre) in
  let twice := output_lines (process_lines TEXTURE_MAPPING once) in
  let after1 :=
    writelines (output_lines (run TEXTURE_MAPPING (start None true) post)) in
  let after2 :=
    writelines (output_lines (run TEXTURE_MAPPING (start None true)
                                (readlines after1))) in
  ∃ w1 w2,
    process_ron_file w input_file output_file = Returns PyNone w1
    ∧ files w1 !! output_file =
        Some (writelines once ++ writelines (nl :: mid) ++ rl ++ tl
                ++ after1)
    ∧ process_ron_file w1 output_file output_file2 = Returns PyNone w2
    ∧ files w2 !! output_file2 =
        Some (writelines twice ++ writelines (nl :: mid) ++ rl ++ tl ++ tl
                ++ after2).
Proof.
  intros Hf Hlines E Hm Hmid Hrot tl once twice after1 after2.
  (* the lines read are terminated, the last one perhaps excepted *)
  pose proof (readlines_file_lines text) as Hfl. rewrite Hlines in Hfl.
  replace (pre ++ nl :: mid ++ rl :: post)
    with ((pre ++ nl :: mid) ++ rl :: post) in Hfl by (by simplify_list_eq).
  apply file_lines_app_inv in Hfl as [[Hpre Hnm]%Forall_app Hrl].
  assert (Honce : Forall terminated once)
    by (by apply process_lines_terminated).
  assert (Htl : terminated tl)
    by (eapply texture_line_terminated, texture_path_one_line, Hm).
  (* the first pass *)
  set (rest1 := output_lines (run TEXTURE_MAPPING (start None true) post)).
  assert (Hout1 :
    output_lines (process_lines TEXTURE_MAPPING (readlines text))
    = once ++ nl :: mid ++ rl :: tl :: rest1).
  { rewrite Hlines, (output_after_anchor _ _ _ _ _ _ _ E Hmid Hrot), Hm. done. }
  (* the second pass *)
  assert (Hout2 :
    writelines (output_lines (process_lines TEXTURE_MAPPING
       (readlines (writelines (once ++ nl :: mid ++ rl :: tl :: rest1)))))
    = writelines twice ++ writelines (nl :: mid) ++ rl ++ tl ++ tl ++ after2).
  { unfold after2, after1. fold rest1. destruct Hrl as [Hrl|[-> Hrl]].
    - replace (once ++ nl :: mid ++ rl :: tl :: rest1)
        with ((once ++ nl :: mid ++ [rl; tl]) ++ rest1)
        by (by simplify_list_eq).
      unfold writelines at 2. rewrite concat_app.
      rewrite readlines_concat
        by (rewrite Forall_app, Forall_cons, Forall_app; repeat constructor;
            by inversion Hnm).
      unfold process_lines at 1.
      rewrite <- app_assoc, (run_app _ _ once), (run_app _ _ (nl :: mid ++ _)).
      fold (process_lines TEXTURE_MAPPING once).
      unfold tl. rewrite (run_patched_record _ _ _ _ _ _ E Hm Hmid Hrot).
      fold tl. rewrite run_from.
      cbn [extend output_lines current_body_name texture_added].
      fold twice. unfold writelines. rewrite !concat_app. cbn [concat].
      rewrite !concat_app. cbn [concat]. by simplify_list_eq.
    - subst rest1.
      cbn [run fold_left start output_lines writelines concat readlines].
      replace (once ++ nl :: mid ++ [rl; tl])
        with ((once ++ nl :: mid) ++ [rl; tl]) by (by simplify_list_eq).
      unfold writelines at 2. rewrite concat_app. cbn [concat].
      rewrite app_nil_r, readlines_concat
        by (rewrite Forall_app; split; done).
      rewrite <- (app_nil_r (rl ++ tl)),
        (readlines_terminated (rl ++ tl)) by (by apply terminated_app).
      cbn [readlines].
      destruct (rotation_line_app rl tl Hrot) as [Hrot' Hindent].
      unfold process_lines at 1.
      rewrite <- app_assoc, (run_app _ _ once).
      fold (process_lines TEXTURE_MAPPING once).
      rewrite <- app_comm_cons.
      rewrite (run_record _ _ _ _ _ _ E Hmid Hrot'), Hm, Hindent. fold tl.
      cbn [output_lines]. fold twice.
      unfold writelines. rewrite !concat_app. cbn [concat].
      rewrite !concat_app. cbn [concat]. by simplify_list_eq. }
  eexists _, _. split_and!.
  - by apply process_ron_file_returns.
  - cbn [files]. rewrite lookup_insert_eq, Hout1. f_equal.
    unfold writelines, after1. fold rest1.
    rewrite !concat_app. cbn [concat]. rewrite !concat_app. cbn [concat].
    by simplify_list_eq.
  - apply process_ron_file_returns. cbn [files]. by rewrite lookup_insert_eq.
  - cbn [files]. by rewrite lookup_insert_eq, Hout1, Hout2.
Qed.

Lemma patched_concat_length mapping lines out n :
  patched mapping lines out n → length (concat lines) ≤ length (concat out).
Proof.
  induction 1; cbn; rewrite ?length_app; rewrite ?length_app; lia.
Qed.

(** C5.  Take a file with a name line carrying a name of the dictionary and
    a [rotation_period:] line after it, with no name line and no other
    [rotation_period:] line in between.  A first call of [process_ron_file]
    writes the record with one texture line after the anchor: as many
    spaces as the anchor has leading whitespace characters, the text
    [texture: Some(], the path between double quotes, the text [),] and a
    newline.  A second call on the file the first has written ends normally
    too and writes the record with that texture line twice after the
    anchor: the second text is longer than the first by the length of the
    texture line at least, so the two texts differ. *)
Theorem patch_twice_inserts_twice
    w input_file output_file output_file2 text pre nl mid rl post name path :
  files w !! input_file = Some text →
  readlines text = pre ++ nl :: mid ++ rl :: post →
  re_match NAME_RE nl = Some name →
  TEXTURE_MAPPING !! name = Some path →
  Forall (λ l, ¬ is_name_line l ∧ ¬ is_rotation_line l) mid →
  is_rotation_line rl →
  let tl :=
    replicate (length (leading_whitespace rl)) SPACE
      ++ lit "texture: Some(" ++ [QUOTE] ++ path ++ [QUOTE]
      ++ lit ")," ++ [NEWLINE] in
  let once := output_lines (process_lines TEXTURE_MAPPING pre) in
  let twice := output_lines (process_lines TEXTURE_MAPPING once) in
  let after1 :=
    writelines (output_lines (run TEXTURE_MAPPING (start None true) post)) in
  let after2 :=
    writelines (output_lines (run TEXTURE_MAPPING (start None true)
                                (readlines after1))) in
  let written1 :=
    writelines once ++ writelines (nl :: mid) ++ rl ++ tl ++ after1 in
  let written2 :=
    writelines twice ++ writelines (nl :: mid) ++ rl ++ tl ++ tl ++ after2 in
  ∃ w1 w2,
    process_ron_file w input_file output_file = Returns PyNone w1
    ∧ files w1 !! output_file = Some written1
    ∧ process_ron_file w1 output_file output_file2 = Returns PyNone w2
    ∧ files w2 !! output_file2 = Some written2
    ∧ length written1 + length tl ≤ length written2
    ∧ 19 ≤ length tl
    ∧ written2 ≠ written1.
Proof.
  intros Hf Hlines E Hm Hmid Hrot tl once twice after1 after2
    written1 written2.
  assert (Htl : texture_line (indent_of rl) path = tl).
  { unfold tl, texture_line, indent_of, leading_whitespace.
    by rewrite lstrip_skip, span_length. }
  destruct (second_pass_text w input_file output_file output_file2 text
              pre nl mid rl post name path Hf Hlines E Hm Hmid Hrot)
    as (w1 & w2 & H1 & H2 & H3 & H4).
  rewrite Htl in H2, H4.
  assert (Hlen : length written1 + length tl ≤ length written2).
  { assert (Htwice : length (writelines once) ≤ length (writelines twice)).
    { eapply patched_concat_length.
      apply (run_patched TEXTURE_MAPPING None false once). }
    assert (Hafter : length after1 ≤ length after2).
    { rewrite <- (concat_readlines after1) at 1.
      eapply patched_concat_length.
      apply (run_patched TEXTURE_MAPPING None true (readlines after1)). }
    unfold written1, written2. rewrite !length_app. lia. }
  assert (Hsize : 19 ≤ length tl).
  { unfold tl. rewrite !length_app. cbn [length].
    change (length (lit "texture: Some(")) with 14.
    change (length (lit "),")) with 2. lia. }
  exists w1, w2. split_and!; [done..|].
  intros Heq. rewrite Heq in Hlen. lia.
Qed.

(** *** Sample files *)

Example name_line_matches :
  re_match NAME_RE earth_name_line = Some (lit "Earth").
Proof. reflexivity. Qed.

Example rotation_line_matches :
  re_match ROTATION_RE rotation_line = Some []
  ∧ re_match ROTATION_RE earth_name_line = None
  ∧ re_match NAME_RE rotation_line = None.
Proof. by split_and!. Qed.

(** The matcher gives characters back: a greedy star over the class of
    letter a, followed by the literal a, matches a run of three of them. *)
Example greedy_gives_back :
  let is_a := λ c, (c =? 97)%N in
  re_match [RStar is_a; RChar 97%N] (lit "aaa") = Some []
  ∧ re_match [RGroup is_a; RChar 97%N] (lit "aaab") = Some (lit "aa").
Proof. by split_and!. Qed.

(** The anchor of the Earth record, indented with two spaces, gets the
    texture line of Earth with two leading spaces. *)
Example earth_record :
  output_lines
    (process_lines TEXTURE_MAPPING [earth_name_line; mass_line; rotation_line])
  = [ earth_name_line; mass_line; rotation_line;
      lit "  texture: Some(" ++ [QUOTE]
        ++ lit "textures/celestial/planets/earth_2k.jpg" ++ [QUOTE]
        ++ lit ")," ++ [NEWLINE] ].
Proof. compute_done. Qed.

(** Halley is not in the dictionary: nothing is added. *)
Example halley_record :
  process_lines TEXTURE_MAPPING [halley_name_line; mass_line; rotation_line]
  = Locals [halley_name_line; mass_line; rotation_line] None false 0 [].
Proof. compute_done. Qed.

Example readlines_sample :
  readlines (lit "ab" ++ [NEWLINE; NEWLINE] ++ lit "c")
  = [lit "ab" ++ [NEWLINE]; [NEWLINE]; lit "c"].
Proof. reflexivity. Qed.

(** *** The claims on sample files *)

(** C1 as worded fails on an anchor indented with a tab: the added line
    starts with one space, not with the tab. *)
Lemma texture_whitespace_counterexample :
  re_match NAME_RE earth_name_line = Some (lit "Earth")
  ∧ TEXTURE_MAPPING !! lit "Earth" = Some earth_path
  ∧ is_rotation_line tab_rotation_line
  ∧ output_lines
      (process_lines TEXTURE_MAPPING [earth_name_line; tab_rotation_line])
    = [earth_name_line; tab_rotation_line; texture_line 1 earth_path]
  ∧ leading_whitespace tab_rotation_line = [TAB]
  ∧ texture_line 1 earth_path
    ≠ texture_line_same_whitespace tab_rotation_line earth_path
  ∧ texture_line_same_whitespace tab_rotation_line earth_path
    ∉ output_lines
        (process_lines TEXTURE_MAPPING [earth_name_line; tab_rotation_line]).
Proof. split_and!; compute_done. Qed.

Lemma texture_line_after_anchor_witness :
  let pre := [mass_line] in
  let mid := [mass_line] in
  let post := [mass_line; rotation_line] in
  let rest := output_lines (run TEXTURE_MAPPING (start None true) post) in
  output_lines
    (process_lines TEXTURE_MAPPING
       (pre ++ earth_name_line :: mid ++ rotation_line :: post)) =
    output_lines (process_lines TEXTURE_MAPPING pre)
      ++ earth_name_line :: mid ++ rotation_line
      :: texture_line (indent_of rotation_line) earth_path :: rest
  ∧ texture_line (indent_of rotation_line) earth_path =
      replicate (length (leading_whitespace rotation_line)) SPACE
        ++ lit "texture: Some(" ++ [QUOTE] ++ earth_path ++ [QUOTE]
        ++ lit ")," ++ [NEWLINE]
  ∧ head rest = head post.
Proof.
  apply (texture_line_after_anchor TEXTURE_MAPPING [mass_line] earth_name_line
           [mass_line] rotation_line [mass_line; rotation_line]
           (lit "Earth") earth_path); compute_done.
Defined.

(** C2 as worded fails: one texture line is added, and the call does not
    return 1. *)
Lemma count_not_returned_counterexample :
  let w := ron_world [earth_name_line; rotation_line] in
  (∃ text,
     files w !! ron_path = Some text
     ∧ bodies_updated (process_lines TEXTURE_MAPPING (readlines text)) = 1
     ∧ output_lines (process_lines TEXTURE_MAPPING (readlines text))
       = [earth_name_line; rotation_line; texture_line 2 earth_path])
  ∧ (∃ w', process_ron_file w ron_path ron_path = Returns PyNone w')
  ∧ ∀ w', process_ron_file w ron_path ron_path ≠ Returns (PyInt 1) w'.
Proof.
  intros w. split_and!.
  - eexists. split_and!; [apply lookup_singleton_eq | compute_done..].
  - eexists. apply process_ron_file_returns, lookup_singleton_eq.
  - intros w'.
    rewrite (process_ron_file_returns w _ _ _ (lookup_singleton_eq _ _)).
    discriminate.
Qed.

Lemma count_printed_not_returned_witness :
  let w := ron_world [earth_name_line; rotation_line] in
  let text := writelines [earth_name_line; rotation_line] in
  let st := process_lines TEXTURE_MAPPING (readlines text) in
  files w !! ron_path = Some text
  ∧ process_ron_file w ron_path ron_path =
      Returns PyNone
        (World (<[ron_path := writelines (output_lines st)]> (files w))
               (stdout w ++ printed st ++ summary (bodies_updated st) ron_path))
  ∧ bodies_updated st = 1.
Proof.
  intros w text st.
  assert (H : files w !! ron_path = Some text) by apply lookup_singleton_eq.
  split_and!; [done| |compute_done].
  apply (count_printed_not_returned w ron_path ron_path text H).
Defined.

(** C3 as worded fails on the file written: when the last line read is
    the anchor of a record of the dictionary and has no newline, that line
    is not among the lines of the written text, which has as many lines as
    the text read although one texture line was added. *)
Lemma written_lines_counterexample :
  let lines := [earth_name_line; mass_line; open_rotation_line] in
  let w := ron_world lines in
  let written :=
    writelines [earth_name_line; mass_line]
      ++ open_rotation_line ++ texture_line 2 earth_path in
  readlines (writelines lines) = lines
  ∧ files (outcome_world (process_ron_file w ron_path ron_path)) !! ron_path
    = Some written
  ∧ bodies_updated (process_lines TEXTURE_MAPPING (readlines (writelines lines)))
    = 1
  ∧ open_rotation_line ∈ readlines (writelines lines)
  ∧ (open_rotation_line ∉ readlines written)
  ∧ length (readlines written) = length (readlines (writelines lines)).
Proof. split_and!; compute_done. Qed.

Lemma lines_read_preserved_witness :
  let pre := [mass_line] in
  let body := [mass_line; rotation_line; rotation_line] in
  let post := [earth_name_line; rotation_line] in
  let text := writelines (pre ++ halley_name_line :: body ++ post) in
  let w := ron_world (pre ++ halley_name_line :: body ++ post) in
  let before := output_lines (process_lines TEXTURE_MAPPING pre) in
  let after := output_lines (process_lines TEXTURE_MAPPING post) in
  let written :=
    writelines before ++ writelines (halley_name_line :: body)
      ++ writelines after in
  ∃ w',
    process_ron_file w ron_path ron_path = Returns PyNone w'
    ∧ output_lines (process_lines TEXTURE_MAPPING (readlines text))
      = before ++ (halley_name_line :: body) ++ after
    ∧ files w' !! ron_path = Some written
    ∧ readlines written
      = before ++ (halley_name_line :: body) ++ readlines (writelines after).
Proof.
  intros pre body post text w before after written.
  apply (proj2 (proj2 lines_read_preserved) w ron_path ron_path text
           pre halley_name_line body post (lit "Halley")); try compute_done.
  right. eexists _, _. split; [done | compute_done].
Defined.

Lemma one_texture_line_per_record_witness :
  let pre := [mass_line] in
  let before := [mass_line] in
  let after := [mass_line; rotation_line; rotation_line] in
  let post := [mars_name_line; rotation_line] in
  let st :=
    process_lines TEXTURE_MAPPING
      (pre ++ earth_name_line :: before ++ rotation_line :: after ++ post) in
  output_lines st =
    output_lines (process_lines TEXTURE_MAPPING pre)
      ++ earth_name_line :: before ++ rotation_line
      :: [texture_line (indent_of rotation_line) earth_path] ++ after
      ++ output_lines (process_lines TEXTURE_MAPPING post)
  ∧ bodies_updated st = 2.
Proof.
  intros pre before after post st.
  split; [|compute_done].
  refine (proj1 (proj2 (proj2 (one_texture_line_per_record TEXTURE_MAPPING)
           pre earth_name_line before rotation_line after post (lit "Earth")
           _ _ _ _ _))); try compute_done.
  right. eexists _, _. split; [done | compute_done].
Defined.

Lemma empty_name_not_recognized_witness :
  let st := start (Some (lit "Earth")) false in
  re_match NAME_RE empty_name_line = None
  ∧ loop_body TEXTURE_MAPPING st empty_name_line =
      Locals [empty_name_line] (Some (lit "Earth")) false 0 [].
Proof.
  apply (empty_name_not_recognized TEXTURE_MAPPING
           (start (Some (lit "Earth")) false) (lit "    ") (lit " ")
           (lit "," ++ [NEWLINE])); compute_done.
Defined.

Lemma record_without_anchor_skipped_witness :
  let lines := [earth_name_line; mass_line; mars_name_line; rotation_line] in
  let w := ron_world lines in
  let after := process_lines TEXTURE_MAPPING [mars_name_line; rotation_line] in
  process_ron_file w ron_path ron_path =
    Returns PyNone
      (World (<[ron_path :=
                  writelines ([] ++ earth_name_line :: [mass_line]
                                ++ output_lines after)]> (files w))
             (stdout w ++ ([] ++ printed after)
                ++ summary (0 + bodies_updated after) ron_path))
  ∧ bodies_updated after = 1.
Proof.
  intros lines w after. split; [|compute_done].
  apply (record_without_anchor_skipped w ron_path ron_path (writelines lines)
           [] earth_name_line [mass_line] [mars_name_line; rotation_line]
           (lit "Earth") earth_path); try compute_done.
  right. eexists _, _. split; [done | compute_done].
Defined.

Lemma patch_twice_inserts_twice_witness :
  let lines := [earth_name_line; mass_line; rotation_line; mass_line] in
  let w := ron_world lines in
  let tl :=
    lit "  texture: Some(" ++ [QUOTE]
      ++ lit "textures/celestial/planets/earth_2k.jpg" ++ [QUOTE]
      ++ lit ")," ++ [NEWLINE] in
  let written1 :=
    writelines [earth_name_line; mass_line; rotation_line; tl; mass_line] in
  let written2 :=
    writelines [earth_name_line; mass_line; rotation_line; tl; tl; mass_line] in
  ∃ w1 w2,
    process_ron_file w ron_path ron_path = Returns PyNone w1
    ∧ files w1 !! ron_path = Some written1
    ∧ process_ron_file w1 ron_path ron_path = Returns PyNone w2
    ∧ files w2 !! ron_path = Some written2
    ∧ written2 ≠ written1.
Proof.
  intros lines w tl written1 written2.
  destruct (patch_twice_inserts_twice w ron_path ron_path ron_path
              (writelines lines) [] earth_name_line [mass_line] rotation_line
              [mass_line] (lit "Earth") earth_path)
    as (w1 & w2 & H1 & H2 & H3 & H4 & _ & _ & H7); [compute_done..|].
  exists w1, w2. split_and!; [exact H1|exact H2|exact H3|exact H4|exact H7].
Defined.

End PatcherFacts.

(** ** The generator *)

Module PlaceholdersFacts.
Import Placeholders.

Lemma for_each_app {X S} (xs ys : list X) (body : X → S → option S) s :
  for_each (xs ++ ys) body s = for_each xs body s ≫= for_each ys body.
Proof.
  revert s. induction xs as [|x xs IH]; intros s; cbn; [done|].
  destruct (body x s); cbn; [apply IH | done].
Qed.

Section Generator.

Context (rng : Type) (random_seed : Z → rng)
  (random_randint : Z → Z → rng → Z * rng)
  (GaussianBlur1 : image → image) (hash : pystr → Z).

Local Abbreviation next_state := (next_state rng random_randint).
Local Abbreviation sample_from := (sample_from rng random_randint).
Local Abbreviation noise_sample := (noise_sample rng random_seed random_randint).
Local Abbreviation noisy := (noisy rng random_randint).
Local Abbreviation noise_pixel := (noise_pixel rng random_randint).
Local Abbreviation add_noise := (add_noise rng random_randint).
Local Abbreviation create_rocky_texture :=
  (create_rocky_texture rng random_seed random_randint GaussianBlur1).
Local Abbreviation create_moon_texture :=
  (create_moon_texture rng random_seed random_randint GaussianBlur1 hash).
Local Abbreviation generate :=
  (generate rng random_seed random_randint GaussianBlur1 hash).
Local Abbreviation main := (main rng random_seed random_randint GaussianBlur1 hash).
Local Abbreviation saved_alone :=
  (saved_alone rng random_seed random_randint GaussianBlur1 hash).
Local Abbreviation rocky_image :=
  (rocky_image rng random_seed random_randint GaussianBlur1).
Local Abbreviation saved_entry :=
  (saved_entry rng random_seed random_randint GaussianBlur1 hash).
Local Abbreviation world := (world rng).

(** *** Pixels in sequence *)

Lemma noisy_cons p ps g :
  noisy (p :: ps) g =
    (noisy_pixel p (sample_from g 0) :: (noisy ps (next_state g)).1,
     (noisy ps (next_state g)).2).
Proof.
  cbn. unfold next_state, sample_from. cbn.
  destruct (random_randint (-30) 30 g) as [noise g']. cbn.
  by destruct (Placeholders.noisy rng random_randint ps g').
Qed.

Lemma noisy_app ps qs g :
  noisy (ps ++ qs) g =
    ((noisy ps g).1 ++ (noisy qs (noisy ps g).2).1,
     (noisy qs (noisy ps g).2).2).
Proof.
  revert g. induction ps as [|p ps IH]; intros g.
  - cbn. by destruct (Placeholders.noisy rng random_randint qs g).
  - rewrite <- app_comm_cons, !noisy_cons, IH. done.
Qed.

Lemma noisy_length ps g : length (noisy ps g).1 = length ps.
Proof.
  revert g. induction ps as [|p ps IH]; intros g; [done|].
  rewrite noisy_cons. cbn. by rewrite IH.
Qed.

Lemma sample_from_next g n :
  sample_from (next_state g) n = sample_from g (S n).
Proof. unfold sample_from. by rewrite Nat.iter_succ_r. Qed.

Lemma noisy_lookup ps g i p :
  ps !! i = Some p →
  (noisy ps g).1 !! i = Some (noisy_pixel p (sample_from g i)).
Proof.
  revert g i. induction ps as [|q ps IH]; intros g i; [done|].
  rewrite noisy_cons. destruct i as [|i]; cbn.
  - by intros [= ->].
  - intros H. by rewrite (IH _ _ H), sample_from_next.
Qed.

(** *** The loops *)

Lemma clip8_clamped v :
  clip8 (Z.max 0 (Z.min 255 v)) = Z.max 0 (Z.min 255 v).
Proof. unfold clip8. repeat case_match; lia. Qed.

Lemma clip8_in_byte v : in_byte (clip8 v).
Proof. unfold clip8, in_byte. repeat case_match; lia. Qed.

(** One pixel: it is read, one sample is drawn, it is written back. *)
Lemma noise_pixel_step w h y a done p todo g :
  length done = y * w + a → a < w → y < h →
  noise_pixel y a (Image w h (done ++ p :: todo), g) =
    Some (Image w h (done ++ noisy_pixel p (sample_from g 0) :: todo),
          next_state g).
Proof.
  intros Hdone Ha Hy. unfold Placeholders.noise_pixel, getpixel, putpixel.
  cbn [width height data].
  rewrite bool_decide_eq_true_2 by lia. rewrite <- Hdone.
  rewrite (lookup_app_r done) by lia. rewrite Nat.sub_diag.
  change ((p :: todo) !! 0) with (Some p).
  destruct p as [[r g_] b]. cbn [mbind option_bind].
  unfold Placeholders.sample_from, Placeholders.next_state.
  unfold Nat.iter. cbn [nat_rect].
  destruct (random_randint (-30) 30 g) as [noise g'] eqn:Hr. cbn [fst snd].
  cbn [mbind option_bind].
  rewrite insert_app_r_alt by lia. rewrite Nat.sub_diag.
  cbn [clip_pixel noisy_pixel]. by rewrite !clip8_clamped.
Qed.

(** The inner loop on the columns [a], ..., [a + n - 1] of row [y]. *)
Lemma row_noise w h y n : ∀ a done todo g,
  length done = y * w + a → a + n ≤ w → y < h → n ≤ length todo →
  for_each (seq a n) (noise_pixel y) (Image w h (done ++ todo), g) =
    Some (Image w h (done ++ (noisy (take n todo) g).1 ++ drop n todo),
          (noisy (take n todo) g).2).
Proof.
  induction n as [|n IH]; intros a done todo g Hdone Ha Hy Hn.
  { cbn. by rewrite drop_0. }
  destruct todo as [|p todo]; [cbn in Hn; lia|].
  cbn [seq for_each]. rewrite noise_pixel_step by lia.
  cbn [mbind option_bind].
  rewrite (cons_middle _ done), app_assoc.
  rewrite IH; [|rewrite length_app; cbn; lia|lia|lia|cbn in Hn; lia].
  rewrite firstn_cons, noisy_cons. cbn [fst snd drop].
  by rewrite <- !app_assoc.
Qed.

(** The outer loop on the rows [b], ..., [b + m - 1]. *)
Lemma rows_noise w h m : ∀ b done todo g,
  length done = b * w → b + m ≤ h → m * w ≤ length todo →
  for_each (seq b m) (λ y, for_each (range w) (noise_pixel y))
           (Image w h (done ++ todo), g) =
    Some (Image w h (done ++ (noisy (take (m * w) todo) g).1
                       ++ drop (m * w) todo),
          (noisy (take (m * w) todo) g).2).
Proof.
  induction m as [|m IH]; intros b done todo g Hdone Hb Hm.
  { cbn. by rewrite drop_0. }
  cbn [seq for_each]. unfold range.
  rewrite row_noise by lia. cbn [mbind option_bind].
  rewrite app_assoc.
  rewrite IH;
    [|rewrite length_app, noisy_length, length_take; lia|lia
     |rewrite length_drop; lia].
  replace (S m * w) with (w + m * w) by lia.
  rewrite <- take_take_drop, noisy_app, <- drop_drop. cbn [fst snd].
  by rewrite <- !app_assoc.
Qed.

Lemma add_noise_new w h color g :
  add_noise w h (Image_new w h color, g) =
    Some (Image w h (noisy (replicate (h * w) (clip_pixel color)) g).1,
          (noisy (replicate (h * w) (clip_pixel color)) g).2).
Proof.
  unfold Placeholders.add_noise, Image_new, range.
  pose proof (rows_noise w h h 0 [] (replicate (h * w) (clip_pixel color)) g)
    as H.
  cbn [app] in H. unfold range in H.
  rewrite H; [|done|lia|by rewrite length_replicate].
  rewrite take_ge, drop_ge by (by rewrite length_replicate).
  by rewrite app_nil_r.
Qed.

(** The function reseeds the generator, so it never fails and its result
    is fixed by its arguments. *)
Lemma create_rocky_texture_total w h color seed g :
  create_rocky_texture w h color seed g =
    Some (rocky_image w h color seed,
          (noisy (replicate (h * w) (clip_pixel color)) (random_seed seed)).2).
Proof.
  unfold Placeholders.create_rocky_texture. by rewrite add_noise_new.
Qed.

Lemma noisy_state ps g :
  (noisy ps g).2 = Nat.iter (length ps) next_state g.
Proof.
  revert g. induction ps as [|p ps IH]; intros g; [done|].
  rewrite noisy_cons. cbn [snd length]. by rewrite IH, Nat.iter_succ_r.
Qed.

Lemma create_rocky_texture_image w h color seed g :
  ∃ g', create_rocky_texture w h color seed g
        = Some (rocky_image w h color seed, g').
Proof. eexists. apply create_rocky_texture_total. Qed.

Lemma create_moon_texture_saved path w h color name (wd : world) :
  ∃ g out,
    create_moon_texture path w h color name wd =
      Some (World rng g (saved rng wd ++ [saved_entry w h (path, name, color)])
              out).
Proof.
  unfold Placeholders.create_moon_texture.
  rewrite create_rocky_texture_total. cbn [mbind option_bind].
  by eexists _, _.
Qed.

Lemma generate_saved w h specs : ∀ wd : world,
  ∃ g out,
    generate w h specs wd =
      Some (World rng g (saved rng wd ++ map (saved_entry w h) specs) out).
Proof.
  unfold Placeholders.generate.
  induction specs as [|[[path name] color] specs IH]; intros wd.
  { destruct wd as [g sv out]. exists g, out. cbn. by rewrite app_nil_r. }
  cbn [for_each map].
  destruct (create_moon_texture_saved path w h color name wd) as (g & out & ->).
  cbn [mbind option_bind].
  destruct (IH (World rng g
                  (saved rng wd ++ [saved_entry w h (path, name, color)]) out))
    as (g' & out' & ->).
  exists g', out'. cbn [saved]. by rewrite <- app_assoc.
Qed.

Lemma saved_entry_alone w h spec :
  saved_alone (w, h, spec) (saved_entry w h spec).
Proof.
  destruct spec as [[path name] color]. cbn.
  exists (rocky_image w h color (hash name)). split; [done|].
  intros g. apply create_rocky_texture_image.
Qed.

Lemma saved_entries_alone w h specs :
  Forall2 saved_alone (sized w h specs) (map (saved_entry w h) specs).
Proof.
  induction specs as [|spec specs IH]; cbn; constructor; [|done].
  apply saved_entry_alone.
Qed.

(** *** The claims *)

(** C7.  If [random.randint(a, b)] always gives a value between [a] and
    [b], the loops of [create_rocky_texture] end normally and draw one
    sample per pixel, row after row: the pixel [(x, y)] of the raster, before
    the smoothing, is the pixel [(r, g, b)] of the new image with the sample
    number [y * width + x] added to each of its three channels, that sample
    lies between -30 and 30, and each channel is clamped between 0 and 255.
    The pixel of the new image is the base colour when its channels are
    between 0 and 255. *)
Theorem noise_added_and_clamped width height base_color seed g0 :
  (∀ lo hi g, (lo ≤ hi)%Z →
     (lo ≤ (random_randint lo hi g).1 ≤ hi)%Z) →
  ∃ img g',
    add_noise width height
      (Image_new width height base_color, random_seed seed) = Some (img, g')
    ∧ create_rocky_texture width height base_color seed g0
        = Some (GaussianBlur1 img, g')
    ∧ g' = Nat.iter (height * width) next_state (random_seed seed)
    ∧ ∀ x y, x < width → y < height →
        let noise := noise_sample seed (y * width + x) in
        ∃ r g_ b,
          getpixel (Image_new width height base_color) x y = Some (r, g_, b)
          ∧ (in_byte base_color.1.1 → in_byte base_color.1.2 →
             in_byte base_color.2 → (r, g_, b) = base_color)
          ∧ (-30 ≤ noise ≤ 30)%Z
          ∧ getpixel img x y =
              Some (Z.max 0 (Z.min 255 (r + noise)),
                    Z.max 0 (Z.min 255 (g_ + noise)),
                    Z.max 0 (Z.min 255 (b + noise)))
          ∧ in_byte (Z.max 0 (Z.min 255 (r + noise)))
          ∧ in_byte (Z.max 0 (Z.min 255 (g_ + noise)))
          ∧ in_byte (Z.max 0 (Z.min 255 (b + noise))).
Proof.
  intros Hrange. eexists _, _. split_and!.
  - apply add_noise_new.
  - apply create_rocky_texture_total.
  - by rewrite noisy_state, length_replicate.
  - intros x y Hx Hy noise.
    assert (Hnoise : (-30 ≤ noise ≤ 30)%Z) by (apply Hrange; lia).
    assert (Hi : y * width + x < height * width) by nia.
    destruct base_color as [[r0 g0_] b0].
    exists (clip8 r0), (clip8 g0_), (clip8 b0).
    split; [|split; [|split; [done|split; [|unfold in_byte; lia]]]].
    + unfold getpixel, Image_new.
      cbn [Placeholders.width Placeholders.height data].
      rewrite bool_decide_eq_true_2 by done. by apply lookup_replicate_2.
    + unfold in_byte, clip8. cbn [fst snd]. intros ? ? ?.
      repeat case_match; f_equal; try f_equal; lia.
    + unfold getpixel. cbn [Placeholders.width Placeholders.height data].
      rewrite bool_decide_eq_true_2 by done.
      rewrite (noisy_lookup _ _ _ (clip8 r0, clip8 g0_, clip8 b0)); [done|].
      by apply lookup_replicate_2.
Qed.

(** C8.  Two calls of [create_rocky_texture] with the same width, height,
    base colour and seed end normally with the same image, whatever the
    state in which each finds the generator; and two calls of
    [create_moon_texture] with the same size, colour and name, in one run of
    the interpreter, save the same raster. *)
Theorem same_arguments_same_raster width height base_color :
  (∀ seed g1 g2, ∃ img g',
     create_rocky_texture width height base_color seed g1 = Some (img, g')
     ∧ create_rocky_texture width height base_color seed g2 = Some (img, g'))
  ∧ (∀ name path1 path2 (w1 w2 : world), ∃ img g1 out1 g2 out2,
       create_moon_texture path1 width height base_color name w1
         = Some (World rng g1 (saved rng w1 ++ [(path1, Jpeg 85 img)]) out1)
       ∧ create_moon_texture path2 width height base_color name w2
         = Some (World rng g2 (saved rng w2 ++ [(path2, Jpeg 85 img)]) out2)).
Proof.
  split.
  - intros seed g1 g2. eexists _, _.
    split; apply create_rocky_texture_total.
  - intros name path1 path2 w1 w2.
    destruct (create_moon_texture_saved path1 width height base_color name w1)
      as (g1 & out1 & ->).
    destruct (create_moon_texture_saved path2 width height base_color name w2)
      as (g2 & out2 & ->).
    by eexists _, g1, out1, g2, out2.
Qed.

(** C9.  The file saved for a specification is the one a call of
    [create_rocky_texture] for it alone would give from any state of the
    generator: in two runs of a loop, over any lists that hold the
    specification and from any states of the generator, the same file is
    saved for it; and every file [main] saves is the one its specification
    alone determines. *)
Theorem raster_independent_of_other_specs :
  (∀ width height spec before1 after1 before2 after2 (w1 w2 : world),
     ∃ w1' w2' entry,
       generate width height (before1 ++ spec :: after1) w1 = Some w1'
       ∧ generate width height (before2 ++ spec :: after2) w2 = Some w2'
       ∧ saved rng w1' !! (length (saved rng w1) + length before1) = Some entry
       ∧ saved rng w2' !! (length (saved rng w2) + length before2) = Some entry
       ∧ saved_alone (width, height, spec) entry)
  ∧ (∀ w : world, ∃ w' entries,
       main w = Some w'
       ∧ saved rng w' = saved rng w ++ entries
       ∧ Forall2 saved_alone all_specs entries).
Proof.
  split.
  - intros width height spec before1 after1 before2 after2 w1 w2.
    destruct (generate_saved width height (before1 ++ spec :: after1) w1)
      as (g1 & out1 & ->).
    destruct (generate_saved width height (before2 ++ spec :: after2) w2)
      as (g2 & out2 & ->).
    eexists _, _, (saved_entry width height spec).
    split_and!; [done|done| | |apply saved_entry_alone]; cbn [saved];
      rewrite lookup_app_r, map_app by lia;
      rewrite lookup_app_r by (rewrite length_map; lia);
      rewrite length_map;
      by match goal with |- _ !! ?i = _ => replace i with 0 by lia end.
  - intros w. unfold Placeholders.main.
    match goal with |- context [generate 1024 512 moons_1k ?w0] =>
      destruct (generate_saved 1024 512 moons_1k w0) as (g1 & out1 & ->) end.
    cbn [mbind option_bind].
    match goal with |- context [generate 2048 1024 moons_2k ?w0] =>
      destruct (generate_saved 2048 1024 moons_2k w0) as (g2 & out2 & ->) end.
    cbn [mbind option_bind].
    match goal with |- context [generate 2048 1024 asteroids_2k ?w0] =>
      destruct (generate_saved 2048 1024 asteroids_2k w0) as (g3 & out3 & ->)
    end.
    cbn [mbind option_bind].
    match goal with |- context [generate 2048 1024 dwarf_planets_2k ?w0] =>
      destruct (generate_saved 2048 1024 dwarf_planets_2k w0)
        as (g4 & out4 & ->)
    end.
    cbn [mbind option_bind saved].
    eexists _, _. split_and!; [done| |].
    + by rewrite <- !app_assoc.
    + unfold all_specs. repeat apply Forall2_app; apply saved_entries_alone.
Qed.

End Generator.

End PlaceholdersFacts.

(** *** The claims on a sample generator *)

Module PlaceholdersSamples.
Import Placeholders PlaceholdersFacts.

Lemma noise_added_and_clamped_witness :
  (∀ lo hi g, (lo ≤ hi)%Z → (lo ≤ (lcg_randint lo hi g).1 ≤ hi)%Z)
  ∧ ∃ img g',
      add_noise Z lcg_randint 3 2
        (Image_new 3 2 (180, 250, 10)%Z, lcg_seed 42) = Some (img, g')
      ∧ create_rocky_texture Z lcg_seed lcg_randint no_blur 3 2
          (180, 250, 10)%Z 42 0%Z = Some (no_blur img, g')
      ∧ getpixel img 2 1 = Some (170, 240, 0)%Z.
Proof.
  assert (Hrange : ∀ lo hi g, (lo ≤ hi)%Z →
            (lo ≤ (lcg_randint lo hi g).1 ≤ hi)%Z).
  { intros lo hi g H. cbn [lcg_randint fst].
    pose proof (Z.mod_pos_bound g (hi - lo + 1)). lia. }
  split; [exact Hrange|].
  destruct (noise_added_and_clamped Z lcg_seed lcg_randint no_blur
              3 2 (180, 250, 10)%Z 42 0%Z Hrange)
    as (img & g' & H1 & H2 & _ & H4).
  exists img, g'. split_and!; [done|done|].
  destruct (H4 2 1) as (r & g_ & b & Hnew & _ & _ & -> & _); [lia|lia|].
  vm_compute in Hnew. injection Hnew as <- <- <-. compute_done.
Defined.

(** The same raster for Io from two states of the generator. *)
Example io_twice :
  create_rocky_texture Z lcg_seed lcg_randint no_blur 4 2 (180, 150, 100)%Z
    (sum_hash (lit "Io")) 0%Z
  = create_rocky_texture Z lcg_seed lcg_randint no_blur 4 2 (180, 150, 100)%Z
      (sum_hash (lit "Io")) 12345%Z.
Proof. reflexivity. Qed.

End PlaceholdersSamples.

(** * More of the two scripts *)

(** ** The patcher *)

Module PatcherExtra.
Import Patcher PatcherFacts.

Section Loop.

Variable mapping : gmap pystr pystr.

(** The three things an iteration can do. *)
Lemma loop_body_kinds st line :
  (∃ name, re_match NAME_RE line = Some name
     ∧ loop_body mapping st line =
         Locals (output_lines st ++ [line]) (Some name) false
                (bodies_updated st) (printed st))
  ∨ (¬ is_name_line line
     ∧ loop_body mapping st line =
         Locals (output_lines st ++ [line]) (current_body_name st)
                (texture_added st) (bodies_updated st) (printed st))
  ∨ (¬ is_name_line line ∧ is_rotation_line line
     ∧ ∃ name, current_body_name st = Some name ∧ name ≠ []
         ∧ texture_added st = false
         ∧ loop_body mapping st line =
             match mapping !! name with
             | Some path =>
                 Locals (output_lines st
                           ++ [line; texture_line (indent_of line) path])
                        None true (S (bodies_updated st))
                        (printed st ++ [added_message name])
             | None =>
                 Locals (output_lines st ++ [line]) None false
                        (bodies_updated st) (printed st)
             end).
Proof.
  destruct (re_match NAME_RE line) as [name|] eqn:E.
  { left. exists name. split; [done|]. by apply loop_body_name. }
  assert (Hn : ¬ is_name_line line) by (by intros [? ?]; congruence).
  destruct (decide (is_rotation_line line)) as [Hrot|Hrot];
    [|right; left; split; [done|apply loop_body_copy; auto]].
  destruct (current_body_name st) as [[|c name]|] eqn:Hc;
    [right; left; split; [done|rewrite <- Hc; apply loop_body_copy;
                                rewrite ?Hc; auto]| |
     right; left; split; [done|rewrite <- Hc; apply loop_body_copy;
                                rewrite ?Hc; auto]].
  destruct (texture_added st) eqn:Ha;
    [right; left; split; [done|rewrite <- Hc, <- Ha; apply loop_body_copy;
                                auto]|].
  right. right. split_and!; [done..|].
  exists (c :: name). split_and!; [done..|].
  by apply loop_body_anchor.
Qed.

Lemma loop_body_ok st line :
  locals_ok mapping st → locals_ok mapping (loop_body mapping st line).
Proof.
  intros (Hflag & Hname & Hlen & Hmsg).
  destruct (loop_body_kinds st line)
    as [(name & E & ->)|[(_ & ->)|(_ & _ & name & Hc & Hne & Ha & ->)]].
  - split_and!; cbn; [done| |done|done].
    intros ? [= <-]. split; [by eapply name_match_nonempty|].
    apply name_match_spec in E as (_ & _ & _ & _ & _ & Hq).
    intros Hin. by eapply Forall_forall in Hq.
  - done.
  - destruct (mapping !! name) as [path|] eqn:Hm;
      split_and!; cbn; try done.
    + rewrite length_app. cbn. lia.
    + apply Forall_app. split; [done|]. repeat constructor.
      exists name. by rewrite Hm.
Qed.

Lemma run_ok st lines :
  locals_ok mapping st → locals_ok mapping (run mapping st lines).
Proof.
  revert st. induction lines as [|line lines IH]; intros st H; [done|].
  rewrite run_cons. by apply IH, loop_body_ok.
Qed.

Lemma initial_ok : locals_ok mapping initial.
Proof. split_and!; cbn; by try constructor. Qed.

(** X1.  At every turn of the loop, whatever the input, the texture flag
    is only set when the body name is [None], and a body name is never
    empty and holds no double quote: the test of the flag and the truth
    test of the name never decide anything the test against [None] would
    not. *)
Theorem cursor_invariant lines :
  let st := process_lines mapping lines in
  (texture_added st = true → current_body_name st = None)
  ∧ (∀ name, current_body_name st = Some name → name ≠ [] ∧ QUOTE ∉ name)
  ∧ (truthy (current_body_name st) && negb (texture_added st)
     = bool_decide (is_Some (current_body_name st))).
Proof.
  destruct (run_ok initial lines initial_ok) as (Hflag & Hname & _).
  fold (process_lines mapping lines) in Hflag, Hname. cbn zeta.
  split_and!; [done..|].
  destruct (current_body_name (process_lines mapping lines))
    as [name|] eqn:Hc; [|done].
  destruct (Hname name eq_refl) as [Hne _].
  rewrite truthy_nonempty by done.
  destruct (texture_added _); [by specialize (Hflag eq_refl)|done].
Qed.

(** X2.  One message is printed per body counted: the messages are as many
    as [bodies_updated], and each is [Added texture for: ] followed by a
    key of the dictionary. *)
Theorem one_message_per_body lines :
  let st := process_lines mapping lines in
  length (printed st) = bodies_updated st
  ∧ Forall (λ m, ∃ name, is_Some (mapping !! name) ∧ m = added_message name)
           (printed st).
Proof.
  destruct (run_ok initial lines initial_ok) as (_ & _ & Hlen & Hmsg).
  by fold (process_lines mapping lines) in Hlen, Hmsg.
Qed.

(** While every name met is outside the dictionary, lines are copied. *)
Lemma run_all_unmapped st lines :
  (∀ name, current_body_name st = Some name → mapping !! name = None) →
  (∀ line name, line ∈ lines → re_match NAME_RE line = Some name →
     mapping !! name = None) →
  let st' := run mapping st lines in
  output_lines st' = output_lines st ++ lines
  ∧ bodies_updated st' = bodies_updated st
  ∧ printed st' = printed st.
Proof.
  cbn zeta. revert st.
  induction lines as [|line lines IH]; intros st Hst Hlines.
  { cbn. by rewrite app_nil_r. }
  rewrite run_cons.
  assert (Hrest : ∀ l name, l ∈ lines → re_match NAME_RE l = Some name →
            mapping !! name = None).
  { intros l name Hl. apply Hlines. by right. }
  destruct (loop_body_kinds st line)
    as [(name & E & ->)|[(_ & ->)|(_ & _ & name & Hc & _ & _ & ->)]].
  - destruct (IH (Locals (output_lines st ++ [line]) (Some name) false
                    (bodies_updated st) (printed st))) as (-> & -> & ->);
      [|done|cbn; by rewrite <- app_assoc].
    cbn. intros ? [= <-]. eapply Hlines; [by left | done].
  - destruct (IH (Locals (output_lines st ++ [line]) (current_body_name st)
                    (texture_added st) (bodies_updated st) (printed st)))
      as (-> & -> & ->); [done|done|cbn; by rewrite <- app_assoc].
  - rewrite (Hst _ Hc).
    destruct (IH (Locals (output_lines st ++ [line]) None false
                    (bodies_updated st) (printed st))) as (-> & -> & ->);
      [done|done|cbn; by rewrite <- app_assoc].
Qed.

(** X3.  When no name line of the input carries a key of the dictionary,
    which is so of an empty input and of one without name lines, the
    output lines are the input lines, the count is 0 and no message is
    printed, whatever [rotation_period:] lines the input has. *)
Theorem unmapped_input_copied lines :
  (∀ line name, line ∈ lines → re_match NAME_RE line = Some name →
     mapping !! name = None) →
  let st := process_lines mapping lines in
  output_lines st = lines ∧ bodies_updated st = 0 ∧ printed st = [].
Proof.
  intros H. by apply (run_all_unmapped initial lines).
Qed.

(** X4.  The loop works from left to right: the output for the first part
    of an input starts the output for the whole, and the count only grows.
    When the second part is empty or starts with a name line, the output,
    the count and the messages for the whole are those of the two parts
    put together. *)
Theorem patch_of_concatenation lines1 lines2 :
  let st1 := process_lines mapping lines1 in
  let st2 := process_lines mapping lines2 in
  let st := process_lines mapping (lines1 ++ lines2) in
  output_lines st1 `prefix_of` output_lines st
  ∧ bodies_updated st1 ≤ bodies_updated st
  ∧ (lines2 = [] ∨ (∃ line rest, lines2 = line :: rest ∧ is_name_line line) →
     output_lines st = output_lines st1 ++ output_lines st2
     ∧ bodies_updated st = bodies_updated st1 + bodies_updated st2
     ∧ printed st = printed st1 ++ printed st2).
Proof.
  cbn zeta.
  assert (E : process_lines mapping (lines1 ++ lines2)
              = run mapping (process_lines mapping lines1) lines2)
    by apply run_app.
  rewrite E. split_and!.
  - rewrite run_from. cbn. by eexists.
  - rewrite run_from. cbn. lia.
  - intros H. by apply run_next_record.
Qed.

(** A well-formed record, from any locals. *)
Lemma run_well_formed st r :
  well_formed r →
  run mapping st (record_lines r) =
    match mapping !! body_name r with
    | Some path =>
        Locals (output_lines st ++ patched_record mapping r) None true
               (S (bodies_updated st))
               (printed st ++ [added_message (body_name r)])
    | None =>
        Locals (output_lines st ++ patched_record mapping r) None false
               (bodies_updated st) (printed st)
    end.
Proof.
  intros (E & Hbefore & Hrot & Hafter). unfold record_lines, patched_record.
  replace (name_line r :: before_anchor r ++ anchor r :: after_anchor r)
    with ((name_line r :: before_anchor r ++ [anchor r]) ++ after_anchor r)
    by (by simplify_list_eq).
  rewrite run_app, (run_record _ _ _ _ _ _ E Hbefore Hrot).
  destruct (mapping !! body_name r) as [path|];
    rewrite run_idle by done; cbn; f_equal; by simplify_list_eq.
Qed.

Lemma run_well_formed_records rs : ∀ st,
  Forall well_formed rs →
  let st' := run mapping st (concat (record_lines <$> rs)) in
  output_lines st' = output_lines st ++ concat (patched_record mapping <$> rs)
  ∧ bodies_updated st' = bodies_updated st + length (mapped_names mapping rs)
  ∧ printed st' = printed st ++ (added_message <$> mapped_names mapping rs).
Proof.
  cbn zeta. induction rs as [|r rs IH]; intros st Hrs.
  { cbn. by rewrite !app_nil_r, Nat.add_0_r. }
  apply Forall_cons in Hrs as [Hr Hrs].
  rewrite fmap_cons, concat_cons, run_app, (run_well_formed _ _ Hr).
  unfold mapped_names. rewrite filter_cons.
  destruct (mapping !! body_name r) as [path|] eqn:Hm.
  - rewrite decide_True by done.
    destruct (IH (Locals (output_lines st ++ patched_record mapping r) None
                    true (S (bodies_updated st))
                    (printed st ++ [added_message (body_name r)])) Hrs)
      as (-> & -> & ->).
    unfold mapped_names. cbn. split_and!; [|lia|]; by simplify_list_eq.
  - rewrite decide_False by (by intros [? ?]).
    destruct (IH (Locals (output_lines st ++ patched_record mapping r) None
                    false (bodies_updated st) (printed st)) Hrs)
      as (-> & -> & ->).
    unfold mapped_names. cbn. split_and!; by simplify_list_eq.
Qed.

(** X5.  On a file made of lines without name line followed by well-formed
    records, the output is these first lines followed by each record with
    its texture line after its anchor when its name is in the dictionary
    and unchanged when not; the count is the number of records with a name
    of the dictionary, and one message is printed for each, in order.  A
    name that comes back in a later record is treated like any other. *)
Theorem well_formed_file_patched preamble rs :
  Forall (λ l, ¬ is_name_line l) preamble →
  Forall well_formed rs →
  let st := process_lines mapping (preamble ++ concat (record_lines <$> rs)) in
  output_lines st = preamble ++ concat (patched_record mapping <$> rs)
  ∧ bodies_updated st = length (mapped_names mapping rs)
  ∧ printed st = added_message <$> mapped_names mapping rs.
Proof.
  intros Hpre Hrs. cbn zeta. unfold process_lines.
  rewrite run_app, (run_idle _ initial preamble Hpre) by done.
  cbn [initial output_lines current_body_name texture_added bodies_updated
       printed app].
  by destruct (run_well_formed_records rs
                 (Locals preamble None false 0 []) Hrs)
    as (-> & -> & ->).
Qed.

End Loop.

(** X6.  A texture line, whatever its indentation and its path, is neither
    a name line nor an anchor, so the loop copies it; and measured as the
    script measures indentation, it has the width it was built with. *)
Theorem texture_line_inert mapping st n path :
  ¬ is_name_line (texture_line n path)
  ∧ ¬ is_rotation_line (texture_line n path)
  ∧ indent_of (texture_line n path) = n
  ∧ loop_body mapping st (texture_line n path) =
      Locals (output_lines st ++ [texture_line n path]) (current_body_name st)
             (texture_added st) (bodies_updated st) (printed st).
Proof.
  split_and!.
  - apply texture_line_not_name.
  - apply texture_line_not_rotation.
  - unfold indent_of. rewrite lstrip_texture_line. unfold texture_line.
    rewrite !length_app, length_replicate. lia.
  - apply loop_body_copy; [apply texture_line_not_name|].
    left. apply texture_line_not_rotation.
Qed.

(** X7.  The name pattern accepts a line that has, after any whitespace,
    [name:], any whitespace, and between double quotes a non-empty name
    without double quote, whatever follows the closing quote, and captures
    that name; the anchor pattern accepts a line that has [rotation_period:]
    after any whitespace, whatever follows; and no line is accepted by
    both. *)
Theorem patterns_accept ws ws' name rest :
  Forall (λ c, isspace c = true) ws →
  Forall (λ c, isspace c = true) ws' →
  name ≠ [] → QUOTE ∉ name →
  re_match NAME_RE
    (ws ++ lit "name:" ++ ws' ++ [QUOTE] ++ name ++ [QUOTE] ++ rest)
    = Some name
  ∧ is_rotation_line (ws ++ lit "rotation_period:" ++ rest)
  ∧ ∀ line, ¬ (is_name_line line ∧ is_rotation_line line).
Proof.
  intros Hws Hws' Hne Hq. split_and!.
  - apply name_match_spec. exists (ws' ++ [QUOTE] ++ name ++ [QUOTE] ++ rest), rest.
    split_and!; [| |done|].
    + rewrite lstrip_skip, skip_app_all by done.
      change (lit "name:") with (110%N :: lit "ame:"). by apply skip_stop.
    + rewrite lstrip_skip, skip_app_all by done. by apply skip_stop.
    + apply Forall_forall. intros c Hc ->. done.
  - apply rotation_match_spec. exists rest.
    rewrite lstrip_skip, skip_app_all by done.
    change (lit "rotation_period:") with (114%N :: lit "otation_period:").
    by apply skip_stop.
  - intros line [[name' E] Hrot]. by eapply name_not_rotation.
Qed.

(** *** Files *)

(** X8.  When no name line read from the input file carries a key of
    [TEXTURE_MAPPING], the loop of [process_ron_file] copies the lines as
    read, counts no body and prints no message of its own; the text handed
    to [writelines] is then the text read, as the read in text mode has
    returned it, and the two closing messages are the only ones, the first
    with the count 0. *)
Theorem unmapped_file_rewritten_as_read w input_file output_file text :
  files w !! input_file = Some text →
  (∀ line name, line ∈ readlines text → re_match NAME_RE line = Some name →
     TEXTURE_MAPPING !! name = None) →
  let st := process_lines TEXTURE_MAPPING (readlines text) in
  output_lines st = readlines text
  ∧ bodies_updated st = 0
  ∧ printed st = []
  ∧ writelines (output_lines st) = text
  ∧ process_ron_file w input_file output_file =
      Returns PyNone
        (World (<[output_file := text]> (files w))
               (stdout w ++
                  [ [NEWLINE] ++ lit "Updated 0 celestial bodies with texture paths";
                    lit "Output written to: " ++ output_file ])).
Proof.
  intros Hf Hnames st.
  destruct (run_all_unmapped TEXTURE_MAPPING initial (readlines text))
    as (Hout & Hn & Hp); [done|done|].
  fold (process_lines TEXTURE_MAPPING (readlines text)) in Hout, Hn, Hp.
  fold st in Hout, Hn, Hp.
  cbn [initial output_lines bodies_updated printed app] in Hout, Hn, Hp.
  assert (Hw : writelines (output_lines st) = text).
  { rewrite Hout. unfold writelines. apply concat_readlines. }
  split_and!; [done..|].
  rewrite (process_ron_file_returns _ _ _ _ Hf). cbn zeta. fold st.
  by rewrite Hw, Hn, Hp.
Qed.

(** X9.  When the text read is empty or ends with a newline, the text
    written is empty or ends with a newline too, and read back line by
    line it gives exactly the output lines: every texture line stands on a
    line of its own. *)
Theorem written_file_reads_back w input_file output_file text :
  files w !! input_file = Some text →
  text = [] ∨ last text = Some NEWLINE →
  let st := process_lines TEXTURE_MAPPING (readlines text) in
  ∃ w' written,
    process_ron_file w input_file output_file = Returns PyNone w'
    ∧ files w' !! output_file = Some written
    ∧ readlines written = output_lines st
    ∧ (written = [] ∨ last written = Some NEWLINE).
Proof.
  intros Hf Hend st.
  assert (Hterm : Forall terminated (output_lines st))
    by (by apply process_lines_terminated, readlines_all_terminated).
  eexists _, _. split_and!.
  - by apply process_ron_file_returns.
  - cbn [files]. apply lookup_insert_eq.
  - fold st. unfold writelines.
    rewrite <- (app_nil_r (concat _)), readlines_concat by done.
    cbn. by rewrite app_nil_r.
  - by apply concat_terminated.
Qed.

(** X10.  When the last line of the file is an anchor without newline, of a
    record with a name of [TEXTURE_MAPPING], the texture line is written
    right after the last character of the anchor: the body is counted, the
    written text ends with the anchor and the texture line joined, and read
    back it has as many lines as the text read, the last one being the two
    joined. *)
Theorem unterminated_anchor_joined
    w input_file output_file text pre nl mid rl name path :
  files w !! input_file = Some text →
  readlines text = pre ++ nl :: mid ++ [rl] →
  NEWLINE ∉ rl →
  re_match NAME_RE nl = Some name →
  TEXTURE_MAPPING !! name = Some path →
  Forall (λ l, ¬ is_name_line l ∧ ¬ is_rotation_line l) mid →
  is_rotation_line rl →
  let tl := texture_line (indent_of rl) path in
  let before := process_lines TEXTURE_MAPPING pre in
  let st := process_lines TEXTURE_MAPPING (readlines text) in
  let written :=
    writelines (output_lines before ++ nl :: mid) ++ rl ++ tl in
  bodies_updated st = S (bodies_updated before)
  ∧ output_lines st = output_lines before ++ nl :: mid ++ [rl; tl]
  ∧ files (outcome_world (process_ron_file w input_file output_file))
      !! output_file = Some written
  ∧ readlines written = output_lines before ++ nl :: mid ++ [rl ++ tl]
  ∧ length (readlines written)
    = length (readlines text) + bodies_updated before.
Proof.
  intros Hf Hlines Hrl E Hm Hmid Hrot tl before st written.
  assert (Hst : st = Locals (output_lines before ++ nl :: mid ++ [rl; tl])
                       None true (S (bodies_updated before))
                       (printed before ++ [added_message name])).
  { unfold st, process_lines. rewrite Hlines, run_app.
    fold (process_lines TEXTURE_MAPPING pre). fold before.
    by rewrite (run_record _ _ _ _ _ _ E Hmid Hrot), Hm. }
  pose proof (readlines_file_lines text) as Hfl. rewrite Hlines in Hfl.
  replace (pre ++ nl :: mid ++ [rl]) with ((pre ++ nl :: mid) ++ [rl]) in Hfl
    by (by simplify_list_eq).
  apply file_lines_app_inv in Hfl as [[Hpre Hnm]%Forall_app _].
  assert (Hbefore : Forall terminated (output_lines before))
    by (by apply process_lines_terminated).
  assert (Htl : terminated tl)
    by (eapply texture_line_terminated, texture_path_one_line, Hm).
  assert (Hread :
    readlines written = output_lines before ++ nl :: mid ++ [rl ++ tl]).
  { unfold written, writelines.
    rewrite readlines_concat by (by apply Forall_app).
    rewrite <- (app_nil_r (rl ++ tl)),
      (readlines_terminated (rl ++ tl)) by (by apply terminated_app).
    cbn [readlines]. by simplify_list_eq. }
  split_and!.
  - by rewrite Hst.
  - by rewrite Hst.
  - rewrite (process_ron_file_returns _ _ _ _ Hf). cbn zeta. fold st.
    cbn [outcome_world files]. rewrite lookup_insert_eq, Hst. f_equal.
    unfold written, writelines. cbn [output_lines].
    rewrite !concat_app. cbn [concat]. rewrite !concat_app. cbn [concat].
    by simplify_list_eq.
  - done.
  - rewrite Hread, Hlines.
    pose proof (run_patched TEXTURE_MAPPING None false pre) as Hp.
    apply patched_length in Hp.
    change (run TEXTURE_MAPPING (start None false) pre) with before in Hp.
    rewrite !length_app. cbn [length].
    rewrite !length_app. cbn [length]. lia.
Qed.

(** *** The program *)

Lemma backup_is_another_file : backup_path ≠ ron_path.
Proof. intros E. by vm_compute in E. Qed.

(** X11.  With a backup file, the program restores the input file from it
    before patching: the configuration file it leaves is the patched
    backup, whatever the file held before, and a second run leaves the
    files as the first did. *)
Theorem main_idempotent_with_backup w content :
  files w !! backup_path = Some content →
  let patched_backup :=
    writelines (output_lines (process_lines TEXTURE_MAPPING (readlines content))) in
  ∃ w1 w2,
    main w = Returns PyNone w1
    ∧ files w1 = <[ron_path := patched_backup]> (files w)
    ∧ main w1 = Returns PyNone w2
    ∧ files w2 = files w1.
Proof.
  intros Hb patched_backup.
  assert (Hmain : ∀ w0, files w0 !! backup_path = Some content →
    ∃ out, main w0 =
      Returns PyNone (World (<[ron_path := patched_backup]> (files w0)) out)).
  { intros w0 H0. unfold main. rewrite H0.
    erewrite process_ron_file_returns; [|cbn [files]; apply lookup_insert_eq].
    cbn [files]. rewrite insert_insert_eq. by eexists. }
  destruct (Hmain w Hb) as [out1 E1].
  destruct (Hmain (World (<[ron_path := patched_backup]> (files w)) out1))
    as [out2 E2].
  { cbn [files]. rewrite lookup_insert_ne; [done|].
    intros E. by apply backup_is_another_file. }
  eexists _, _. split_and!; [exact E1|done|exact E2|].
  cbn [files]. by rewrite insert_insert_eq.
Qed.

(** X12.  The program reads and writes no file but the configuration file
    and its backup, and it never writes the backup: every file but the
    configuration file is after the run what it was before, also when the
    run ends with an exception; and what had been printed stays. *)
Theorem main_touches_one_file w path :
  path ≠ ron_path →
  files (outcome_world (main w)) !! path = files w !! path
  ∧ stdout w `prefix_of` stdout (outcome_world (main w)).
Proof.
  intros Hp. unfold main.
  destruct (files w !! backup_path) as [content|] eqn:Hb.
  - erewrite process_ron_file_returns; [|cbn [files]; apply lookup_insert_eq].
    cbn [outcome_world files stdout]. split.
    + by rewrite !lookup_insert_ne.
    + rewrite <- !app_assoc. by eexists.
  - destruct (files w !! ron_path) as [text|] eqn:Hr.
    + rewrite (process_ron_file_returns _ _ _ _ Hr).
      cbn [outcome_world files stdout]. split.
      * by rewrite lookup_insert_ne.
      * rewrite <- !app_assoc. by eexists.
    + unfold process_ron_file. rewrite Hr. by cbn.
Qed.


(** *** On sample files *)

Lemma cursor_invariant_witness :
  current_body_name (process_lines TEXTURE_MAPPING [earth_name_line; mass_line])
    = Some (lit "Earth")
  ∧ lit "Earth" ≠ [] ∧ QUOTE ∉ lit "Earth".
Proof.
  split; [compute_done|].
  apply (proj1 (proj2 (cursor_invariant TEXTURE_MAPPING
                         [earth_name_line; mass_line])) (lit "Earth")).
  compute_done.
Defined.

Lemma unmapped_input_copied_witness :
  let lines := [mass_line; rotation_line; halley_name_line; rotation_line] in
  let st := process_lines TEXTURE_MAPPING lines in
  output_lines st = lines ∧ bodies_updated st = 0 ∧ printed st = [].
Proof.
  apply (unmapped_input_copied TEXTURE_MAPPING
           [mass_line; rotation_line; halley_name_line; rotation_line]).
  intros line name Hin E. apply list_elem_of_In in Hin. vm_compute in Hin.
  destruct Hin as [<-|[<-|[<-|[<-|[]]]]]; vm_compute in E; try discriminate.
  injection E as <-. compute_done.
Defined.

Lemma patch_of_concatenation_witness :
  let lines1 := [earth_name_line; mass_line] in
  let lines2 := [mars_name_line; rotation_line] in
  output_lines (process_lines TEXTURE_MAPPING (lines1 ++ lines2))
  = output_lines (process_lines TEXTURE_MAPPING lines1)
      ++ output_lines (process_lines TEXTURE_MAPPING lines2)
  ∧ bodies_updated (process_lines TEXTURE_MAPPING (lines1 ++ lines2))
    = bodies_updated (process_lines TEXTURE_MAPPING lines1)
      + bodies_updated (process_lines TEXTURE_MAPPING lines2)
  ∧ printed (process_lines TEXTURE_MAPPING (lines1 ++ lines2))
    = printed (process_lines TEXTURE_MAPPING lines1)
      ++ printed (process_lines TEXTURE_MAPPING lines2).
Proof.
  apply (proj2 (proj2 (patch_of_concatenation TEXTURE_MAPPING
           [earth_name_line; mass_line] [mars_name_line; rotation_line]))).
  right. eexists _, _. split; [done | compute_done].
Defined.

Lemma well_formed_file_patched_witness :
  let preamble := [mass_line; rotation_line] in
  let rs := [earth_record_sample; halley_record_sample; earth_record_sample] in
  let st :=
    process_lines TEXTURE_MAPPING (preamble ++ concat (record_lines <$> rs)) in
  output_lines st = preamble ++ concat (patched_record TEXTURE_MAPPING <$> rs)
  ∧ bodies_updated st = length (mapped_names TEXTURE_MAPPING rs)
  ∧ printed st = added_message <$> mapped_names TEXTURE_MAPPING rs.
Proof.
  apply (well_formed_file_patched TEXTURE_MAPPING [mass_line; rotation_line]
           [earth_record_sample; halley_record_sample; earth_record_sample]).
  - compute_done.
  - repeat constructor; compute_done.
Defined.

Lemma patterns_accept_witness :
  re_match NAME_RE
    (lit "  " ++ lit "name:" ++ lit " " ++ [QUOTE] ++ lit "Io" ++ [QUOTE]
       ++ lit ", // first moon")
    = Some (lit "Io")
  ∧ is_rotation_line
      (lit "  " ++ lit "rotation_period:" ++ lit ", // first moon")
  ∧ ∀ line, ¬ (is_name_line line ∧ is_rotation_line line).
Proof.
  apply (patterns_accept (lit "  ") (lit " ") (lit "Io")
           (lit ", // first moon")); compute_done.
Defined.

Lemma unmapped_file_rewritten_as_read_witness :
  let text := writelines [halley_name_line; rotation_line] in
  let w := ron_world [halley_name_line; rotation_line] in
  let st := process_lines TEXTURE_MAPPING (readlines text) in
  output_lines st = readlines text
  ∧ bodies_updated st = 0
  ∧ printed st = []
  ∧ writelines (output_lines st) = text
  ∧ process_ron_file w ron_path backup_path =
      Returns PyNone
        (World (<[backup_path := text]> (files w))
               (stdout w ++
                  [ [NEWLINE] ++ lit "Updated 0 celestial bodies with texture paths";
                    lit "Output written to: " ++ backup_path ])).
Proof.
  apply (unmapped_file_rewritten_as_read
           (ron_world [halley_name_line; rotation_line]) ron_path backup_path
           (writelines [halley_name_line; rotation_line])).
  - compute_done.
  - intros line name Hin E. apply list_elem_of_In in Hin. vm_compute in Hin.
    destruct Hin as [<-|[<-|[]]]; vm_compute in E; try discriminate.
    injection E as <-. compute_done.
Defined.

Lemma written_file_reads_back_witness :
  let text := writelines [earth_name_line; rotation_line] in
  let w := ron_world [earth_name_line; rotation_line] in
  ∃ w' written,
    process_ron_file w ron_path ron_path = Returns PyNone w'
    ∧ files w' !! ron_path = Some written
    ∧ readlines written
      = output_lines (process_lines TEXTURE_MAPPING (readlines text))
    ∧ (written = [] ∨ last written = Some NEWLINE).
Proof.
  apply (written_file_reads_back
           (ron_world [earth_name_line; rotation_line]) ron_path ron_path
           (writelines [earth_name_line; rotation_line])).
  - compute_done.
  - right. compute_done.
Defined.

Lemma unterminated_anchor_joined_witness :
  let lines := [earth_name_line; mass_line; open_rotation_line] in
  let w := ron_world lines in
  let tl := texture_line 2 earth_path in
  bodies_updated (process_lines TEXTURE_MAPPING (readlines (writelines lines)))
    = 1
  ∧ files (outcome_world (process_ron_file w ron_path ron_path)) !! ron_path
    = Some (writelines [earth_name_line; mass_line] ++ open_rotation_line ++ tl)
  ∧ readlines (writelines [earth_name_line; mass_line]
                 ++ open_rotation_line ++ tl)
    = [earth_name_line; mass_line; open_rotation_line ++ tl].
Proof.
  intros lines w tl.
  destruct (unterminated_anchor_joined w ron_path ron_path (writelines lines)
              [] earth_name_line [mass_line] open_rotation_line
              (lit "Earth") earth_path)
    as (H1 & _ & H3 & H4 & _); [compute_done..|].
  split_and!; [exact H1 | exact H3 | exact H4].
Defined.

Lemma main_idempotent_with_backup_witness :
  let lines := [earth_name_line; rotation_line] in
  let patched_backup := writelines (lines ++ [texture_line 2 earth_path]) in
  ∃ w1 w2,
    main (backup_world lines) = Returns PyNone w1
    ∧ files w1 = <[ron_path := patched_backup]> (files (backup_world lines))
    ∧ main w1 = Returns PyNone w2
    ∧ files w2 = files w1.
Proof.
  intros lines patched_backup.
  destruct (main_idempotent_with_backup (backup_world lines) (writelines lines))
    as (w1 & w2 & H1 & H2 & H3 & H4); [compute_done|].
  exists w1, w2. split_and!; [done| |done|done].
  rewrite H2. f_equal.
Defined.

Lemma main_touches_one_file_witness :
  let w := backup_world [earth_name_line; rotation_line] in
  files (outcome_world (main w)) !! backup_path = files w !! backup_path
  ∧ stdout w `prefix_of` stdout (outcome_world (main w)).
Proof.
  apply (main_touches_one_file
           (backup_world [earth_name_line; rotation_line]) backup_path).
  intros E. by vm_compute in E.
Defined.


End PatcherExtra.

(** ** The generator *)

Module PlaceholdersExtra.
Import Placeholders PlaceholdersFacts.

Lemma clip8_id v : in_byte v → clip8 v = v.
Proof. unfold in_byte, clip8. intros H. repeat case_match; lia. Qed.

Section Generator.

Context (rng : Type) (random_seed : Z → rng)
  (random_randint : Z → Z → rng → Z * rng)
  (GaussianBlur1 : image → image) (hash : pystr → Z).

Local Abbreviation next_state := (next_state rng random_randint).
Local Abbreviation sample_from := (sample_from rng random_randint).
Local Abbreviation noise_sample := (noise_sample rng random_seed random_randint).
Local Abbreviation noisy := (noisy rng random_randint).
Local Abbreviation add_noise := (add_noise rng random_randint).
Local Abbreviation create_rocky_texture :=
  (create_rocky_texture rng random_seed random_randint GaussianBlur1).
Local Abbreviation create_moon_texture :=
  (create_moon_texture rng random_seed random_randint GaussianBlur1 hash).
Local Abbreviation generate :=
  (generate rng random_seed random_randint GaussianBlur1 hash).
Local Abbreviation saved_entry :=
  (saved_entry rng random_seed random_randint GaussianBlur1 hash).
Local Abbreviation world := (world rng).

(** A pixel of the raster the loops leave. *)
Lemma noisy_raster_pixel w h color g x y :
  x < w → y < h →
  getpixel (Image w h (noisy (replicate (h * w) (clip_pixel color)) g).1) x y
  = Some (noisy_pixel (clip_pixel color) (sample_from g (y * w + x))).
Proof.
  intros Hx Hy. unfold getpixel.
  cbn [Placeholders.width Placeholders.height data].
  rewrite bool_decide_eq_true_2 by done.
  apply noisy_lookup, lookup_replicate_2. nia.
Qed.

(** X14.  If [random.randint(a, b)] gives a value between [a] and [b] and
    the base colour has its channels between 0 and 255, every channel of
    every pixel of the raster, before the smoothing, is within 30 of the
    channel of the base colour, and between 0 and 255. *)
Theorem noise_within_thirty width height r g_ b seed :
  (∀ lo hi g, (lo ≤ hi)%Z → (lo ≤ (random_randint lo hi g).1 ≤ hi)%Z) →
  in_byte r → in_byte g_ → in_byte b →
  ∃ img g',
    add_noise width height
      (Image_new width height (r, g_, b), random_seed seed) = Some (img, g')
    ∧ ∀ x y, x < width → y < height →
        ∃ r' g_' b',
          getpixel img x y = Some (r', g_', b')
          ∧ (r - 30 ≤ r' ≤ r + 30)%Z ∧ (g_ - 30 ≤ g_' ≤ g_ + 30)%Z
          ∧ (b - 30 ≤ b' ≤ b + 30)%Z
          ∧ in_byte r' ∧ in_byte g_' ∧ in_byte b'.
Proof.
  intros Hrange Hr Hg Hb. eexists _, _. split; [apply add_noise_new|].
  intros x y Hx Hy. rewrite noisy_raster_pixel by done.
  pose proof (Hrange (-30)%Z 30%Z
                (Nat.iter (y * width + x) next_state (random_seed seed)))
    as Hn.
  fold (sample_from (random_seed seed) (y * width + x)) in Hn.
  cbn [clip_pixel noisy_pixel]. rewrite !clip8_id by done.
  eexists _, _, _. split; [done|]. unfold in_byte in *. lia.
Qed.

(** X15.  Under the same condition on [random.randint], when the channels
    of the base colour are between 30 and 225 no channel is ever clamped:
    the pixel [(x, y)] is the base colour with the sample number
    [y * width + x] added to its three channels, so the differences between
    the channels of a pixel are those of the base colour. *)
Theorem unclamped_noise_is_grey width height r g_ b seed :
  (∀ lo hi g, (lo ≤ hi)%Z → (lo ≤ (random_randint lo hi g).1 ≤ hi)%Z) →
  (30 ≤ r ≤ 225)%Z → (30 ≤ g_ ≤ 225)%Z → (30 ≤ b ≤ 225)%Z →
  ∃ img g',
    add_noise width height
      (Image_new width height (r, g_, b), random_seed seed) = Some (img, g')
    ∧ ∀ x y, x < width → y < height →
        let noise := noise_sample seed (y * width + x) in
        getpixel img x y = Some (r + noise, g_ + noise, b + noise)%Z.
Proof.
  intros Hrange Hr Hg Hb. eexists _, _. split; [apply add_noise_new|].
  intros x y Hx Hy noise. rewrite noisy_raster_pixel by done.
  pose proof (Hrange (-30)%Z 30%Z
                (Nat.iter (y * width + x) next_state (random_seed seed)))
    as Hn.
  fold (sample_from (random_seed seed) (y * width + x)) in Hn.
  fold (noise_sample seed (y * width + x)) in Hn. fold noise in Hn.
  cbn [clip_pixel noisy_pixel].
  rewrite !clip8_id by (unfold in_byte; lia).
  fold (noise_sample seed (y * width + x)). fold noise.
  repeat f_equal; lia.
Qed.

(** X16.  The raster the loops leave has the width and the height asked
    for and one pixel for each position; reading a pixel outside of it
    fails; and for a width or a height of 0 the raster is empty and no
    sample is drawn, the generator staying as [random.seed] left it. *)
Theorem raster_has_requested_size width height base_color seed :
  ∃ img g',
    add_noise width height
      (Image_new width height base_color, random_seed seed) = Some (img, g')
    ∧ Placeholders.width img = width ∧ Placeholders.height img = height
    ∧ length (data img) = height * width
    ∧ (∀ x y, is_Some (getpixel img x y) ↔ x < width ∧ y < height)
    ∧ (width = 0 ∨ height = 0 → data img = [] ∧ g' = random_seed seed).
Proof.
  eexists _, _. split; [apply add_noise_new|].
  cbn [Placeholders.width Placeholders.height data].
  split_and!; [done|done|by rewrite noisy_length, length_replicate| |].
  - intros x y. split.
    + unfold getpixel. cbn [Placeholders.width Placeholders.height].
      case_bool_decide; [done|]. by intros [? ?].
    + intros [Hx Hy]. rewrite noisy_raster_pixel by done. by eexists.
  - intros H0.
    assert (height * width = 0) as -> by (destruct H0; subst; lia).
    done.
Qed.

End Generator.

(** *** On the sample generator *)

Lemma lcg_randint_in_range lo hi g :
  (lo ≤ hi)%Z → (lo ≤ (lcg_randint lo hi g).1 ≤ hi)%Z.
Proof.
  intros H. cbn [lcg_randint fst].
  pose proof (Z.mod_pos_bound g (hi - lo + 1)). lia.
Defined.

Lemma noise_within_thirty_witness :
  ∃ img g',
    add_noise Z lcg_randint 3 2
      (Image_new 3 2 (180, 250, 10)%Z, lcg_seed 42) = Some (img, g')
    ∧ ∃ r' g_' b',
        getpixel img 2 1 = Some (r', g_', b')
        ∧ (180 - 30 ≤ r' ≤ 180 + 30)%Z ∧ (250 - 30 ≤ g_' ≤ 250 + 30)%Z
        ∧ (10 - 30 ≤ b' ≤ 10 + 30)%Z
        ∧ in_byte r' ∧ in_byte g_' ∧ in_byte b'.
Proof.
  destruct (noise_within_thirty Z lcg_seed lcg_randint 3 2 180 250 10 42
              lcg_randint_in_range)
    as (img & g' & H1 & H2); [unfold in_byte; lia..|].
  exists img, g'. split; [done|]. apply H2; lia.
Defined.

Lemma unclamped_noise_is_grey_witness :
  ∃ img g',
    add_noise Z lcg_randint 3 2
      (Image_new 3 2 (180, 150, 100)%Z, lcg_seed 42) = Some (img, g')
    ∧ getpixel img 2 1 = Some (170, 140, 90)%Z.
Proof.
  destruct (unclamped_noise_is_grey Z lcg_seed lcg_randint 3 2 180 150 100 42
              lcg_randint_in_range)
    as (img & g' & H1 & H2); [lia..|].
  exists img, g'. split; [done|].
  rewrite (H2 2 1) by lia. compute_done.
Defined.

Lemma raster_has_requested_size_witness :
  ∃ img g',
    add_noise Z lcg_randint 0 5
      (Image_new 0 5 (180, 150, 100)%Z, lcg_seed 42) = Some (img, g')
    ∧ data img = [] ∧ g' = lcg_seed 42.
Proof.
  destruct (raster_has_requested_size Z lcg_seed lcg_randint 0 5
              (180, 150, 100)%Z 42)
    as (img & g' & H1 & _ & _ & _ & _ & H2).
  exists img, g'. split; [done|]. apply H2. by left.
Defined.

End PlaceholdersExtra.
